(** * MunchMates: the ingredient alias-table builder

    A shallow embedding of [munchmates/data/construct.py], the offline
    script that reads [ingredients.txt] line by line and produces an alias
    map (squashed alias -> canonical name) and a flat word list, each
    written out as a JSON file.

    Python strings are sequences of Unicode code points; they are modelled
    as lists of [N].  The two accumulators of the script, the dictionary
    [ingr_dict] and the list [words], are threaded explicitly through the
    loop.  A Python [dict] keeps its keys in insertion order and that order
    is what [json.dump] writes, so the dictionary is an association list
    with unique keys and in-place update. *)

From Stdlib Require Import Ascii String.
From Stdlib Require Import List NArith ZArith Bool Lia.
Import ListNotations.

Local Open Scope N_scope.

(** ** Code points and strings *)

Definition str := list N.

Definition str_eq_dec : forall a b : str, {a = b} + {a <> b} :=
  list_eq_dec N.eq_dec.

(** An ASCII literal as a Python string. *)
Definition py (s : string) : str := map N_of_ascii (list_ascii_of_string s).

Definition LF : N := 10.
Definition CR : N := 13.
Definition SPACE : N := 32.
Definition COMMA : N := 44.

(** [str.isspace] on one code point, which is also what [str.strip],
    [str.split] without argument and the pattern class [\s] of [re] (on
    [str] patterns) test: CPython's [_PyUnicode_IsWhitespace]. *)
Definition isspace (c : N) : bool :=
  ((9 <=? c) && (c <=? 13))
  || ((28 <=? c) && (c <=? 32))
  || (c =? 0x85) || (c =? 0xA0) || (c =? 0x1680)
  || ((0x2000 <=? c) && (c <=? 0x200A))
  || (c =? 0x2028) || (c =? 0x2029) || (c =? 0x202F)
  || (c =? 0x205F) || (c =? 0x3000).

Definition is_ascii (c : N) : bool := c <? 128.

(** Lowercasing of one ASCII code point: [A-Z] to [a-z], the rest fixed. *)
Definition ascii_lower (c : N) : N :=
  if (65 <=? c) && (c <=? 90) then c + 32 else c.

(** The fullwidth forms U+FF01..U+FF5E, whose compatibility decomposition
    is the ASCII character 0xFEE0 below. *)
Definition is_fullwidth (c : N) : bool := (0xFF01 <=? c) && (c <=? 0xFF5E).

Definition narrow (c : N) : N := if is_fullwidth c then c - 0xFEE0 else c.

(** A Unicode scalar value: a code point below 0x110000 that is not a
    surrogate.  Decoding a text file gives only these. *)
Definition is_scalar (c : N) : bool :=
  (c <? 0x110000) && negb ((0xD800 <=? c) && (c <=? 0xDFFF)).

(** ** The Unicode database

    [unicodedata.normalize("NFKC", _)] and [str.lower] are table driven and
    neither is a character-wise map (composition, final sigma).  They are
    taken as operations on strings, together with the facts about them this
    development uses; each holds of the Unicode character database. *)
Class Unicode := {
  nfkc : str -> str;
  lower : str -> str;
  (** ASCII and fullwidth characters: NFKC narrows, nothing composes. *)
  nfkc_wide : forall s,
    forallb (fun c => is_ascii c || is_fullwidth c) s = true ->
    nfkc s = map narrow s;
  (** Every whitespace character normalizes to one whitespace character. *)
  nfkc_space : forall s,
    forallb isspace s = true -> forallb isspace (nfkc s) = true;
  nfkc_scalar : forall s,
    forallb is_scalar s = true -> forallb is_scalar (nfkc s) = true;
  lower_ascii : forall s,
    forallb is_ascii s = true -> lower s = map ascii_lower s;
  lower_idem : forall s, lower (lower s) = lower s;
  lower_scalar : forall s,
    forallb is_scalar s = true -> forallb is_scalar (lower s) = true
}.

(** ** String primitives *)

(** [s.lstrip()], [s.rstrip()], [s.strip()]. *)
Fixpoint lstrip (s : str) : str :=
  match s with
  | [] => []
  | c :: r => if isspace c then lstrip r else s
  end.

Definition rstrip (s : str) : str := rev (lstrip (rev s)).

Definition strip (s : str) : str := rstrip (lstrip s).

(** [s.split(sep)] for a one-character separator: the pieces between the
    occurrences of [sep]; never the empty list. *)
Fixpoint split_sep (sep : N) (s : str) : list str :=
  match s with
  | [] => [[]]
  | c :: r =>
      if c =? sep then [] :: split_sep sep r
      else match split_sep sep r with
           | t :: ts => (c :: t) :: ts
           | [] => [[c]]
           end
  end.

(** [sep.join(items)]. *)
Fixpoint join (sep : str) (items : list str) : str :=
  match items with
  | [] => []
  | [x] => x
  | x :: rest => x ++ sep ++ join sep rest
  end.

(** [s.split()]: the maximal runs of non-whitespace, in order.  [cur] is
    the word being read, reversed. *)
Fixpoint split_ws_from (cur : str) (s : str) : list str :=
  match s with
  | [] => match cur with [] => [] | _ => [rev cur] end
  | c :: r =>
      if isspace c
      then match cur with
           | [] => split_ws_from [] r
           | _ => rev cur :: split_ws_from [] r
           end
      else split_ws_from (c :: cur) r
  end.

Definition split_ws (s : str) : list str := split_ws_from [] s.

(** [re.sub(r"\s", repl, s)]: every whitespace character is a match. *)
Fixpoint re_sub_space (repl : str) (s : str) : str :=
  match s with
  | [] => []
  | c :: r => if isspace c then repl ++ re_sub_space repl r
              else c :: re_sub_space repl r
  end.

(** [re.sub(r"\s+", repl, s)]: scanning left to right, a match starts at
    the first whitespace character met outside a match and, being greedy,
    takes every whitespace character that follows.  [in_match] says that
    the scan is inside a match whose replacement is already written. *)
Fixpoint re_sub_spaces_from (repl : str) (in_match : bool) (s : str) : str :=
  match s with
  | [] => []
  | c :: r =>
      if isspace c
      then if in_match then re_sub_spaces_from repl true r
           else repl ++ re_sub_spaces_from repl true r
      else c :: re_sub_spaces_from repl false r
  end.

Definition re_sub_spaces (repl : str) (s : str) : str :=
  re_sub_spaces_from repl false s.

(** ** The dictionary *)

Definition dict := list (str * str).

(** [d[k] = v]: an existing key keeps its place and gets the new value, a
    new key goes to the end. *)
Fixpoint dict_set (k v : str) (d : dict) : dict :=
  match d with
  | [] => [(k, v)]
  | (k', v') :: r =>
      if str_eq_dec k k' then (k, v) :: r else (k', v') :: dict_set k v r
  end.

Fixpoint dict_get (k : str) (d : dict) : option str :=
  match d with
  | [] => None
  | (k', v') :: r => if str_eq_dec k k' then Some v' else dict_get k r
  end.

Definition dict_keys (d : dict) : list str := map fst d.

(** [d[k] = v] for each [k] of a list, in order. *)
Definition assign_all (v : str) (keys : list str) (d : dict) : dict :=
  fold_left (fun d k => dict_set k v d) keys d.

(** A dictionary all of whose keys and values are made of Unicode scalar
    values. *)
Definition dict_scalar (d : dict) : Prop :=
  Forall (fun kv => forallb is_scalar (fst kv) = true
                    /\ forallb is_scalar (snd kv) = true) d.

(** ** The loop of [construct.py] *)

Record state := mkState {
  ingr_dict : dict;
  words : list str
}.

Definition initial : state := mkState [] [].

Section Construct.

Context {U : Unicode}.

(** Line 13: [ingrs = normalized.strip().split(",")]. *)
Definition tokens (line : str) : list str :=
  let normalized := nfkc line in
  split_sep COMMA (strip normalized).

(** Line 14: [re.sub(r"\s+", " ", ingrs[0].lower().lower())], given
    [ingrs[0]]. *)
Definition canonical_form (first : str) : str :=
  re_sub_spaces [SPACE] (lower (lower first)).

(** Line 16: [ingr.strip().lower().lower()]. *)
Definition clean (ingr : str) : str := lower (lower (strip ingr)).

(** Line 17: [re.sub(r"\s", "", ingr)] of the cleaned token. *)
Definition alias_key (ingr : str) : str := re_sub_space [] (clean ingr).

(** Lines 16-19: the body of the inner loop. *)
Definition index_token (canonical : str) (st : state) (ingr : str) : state :=
  let ingr := clean ingr in
  let ingrsquashed := re_sub_space [] ingr in
  mkState (dict_set ingrsquashed canonical (ingr_dict st))
          (words st ++ split_ws ingr).

(** Lines 12-19: the body of the outer loop.  [ingrs[0]] raises
    [IndexError] on an empty list: [None]. *)
Definition process_line (st : state) (line : str) : option state :=
  let ingrs := tokens line in
  match ingrs with
  | [] => None
  | first :: _ =>
      let canonical := canonical_form first in
      Some (fold_left (index_token canonical) ingrs st)
  end.

(** Lines 8-19: the loop over the lines of the file. *)
Fixpoint run_from (st : state) (lines : list str) : option state :=
  match lines with
  | [] => Some st
  | line :: rest =>
      match process_line st line with
      | None => None
      | Some st' => run_from st' rest
      end
  end.

Definition run (lines : list str) : option state := run_from initial lines.

(** What one line contributes, named for the statements below: its
    canonical form (line 14 at [ingrs[0]]), the keys it assigns (line 17
    at each token) and the words it appends (line 19 at each token). *)
Definition line_canonical (line : str) : str :=
  canonical_form (hd [] (tokens line)).

Definition line_keys (line : str) : list str := map alias_key (tokens line).

Definition line_words (line : str) : list str :=
  flat_map (fun ingr => split_ws (clean ingr)) (tokens line).

(** The state after the body of the outer loop has run on [line]. *)
Definition step (st : state) (line : str) : state :=
  fold_left (index_token (line_canonical line)) (tokens line) st.

End Construct.

(** ** The words of the specification

    "Replacing every maximal run of one or more whitespace characters by
    a single space", written as a relation between a string and its
    collapsed form, to be compared with [re_sub_spaces]. *)
Inductive collapsed : str -> str -> Prop :=
| collapsed_nil : collapsed [] []
| collapsed_char c s t :
    isspace c = false -> collapsed s t -> collapsed (c :: s) (c :: t)
| collapsed_run run s t :
    run <> [] -> forallb isspace run = true ->
    lstrip s = s ->
    collapsed s t -> collapsed (run ++ s) (SPACE :: t).

(** ** Reading the file

    [for line in f] on a file opened in text mode with the default
    [newline=None]: a line ends at ["\n"], ["\r"] or ["\r\n"], each given
    back as ["\n"]; a last line without terminator is given back as it
    is.  [cur] is the line being read, reversed. *)
Fixpoint readlines_from (cur : str) (s : str) : list str :=
  match s with
  | [] => match cur with [] => [] | _ => [rev cur] end
  | c :: r =>
      if c =? LF then rev (LF :: cur) :: readlines_from [] r
      else if c =? CR then
        match r with
        | c2 :: r2 =>
            if c2 =? LF then rev (LF :: cur) :: readlines_from [] r2
            else rev (LF :: cur) :: readlines_from [] r
        | [] => [rev (LF :: cur)]
        end
      else readlines_from (c :: cur) r
  end.

Definition readlines (s : str) : list str := readlines_from [] s.

(** ** JSON, as [json.dump] writes it

    [json.dump] with its defaults: [ensure_ascii=True], the separators
    [", "] and [": "], no indentation. *)
Module Json.

Definition QUOTE : N := 34.
Definition BACKSLASH : N := 92.

(** One lowercase hexadecimal digit, and [format(n, "04x")]. *)
Definition hex_digit (d : N) : N := if d <? 10 then 48 + d else 87 + d.

Definition hex4 (n : N) : str :=
  [hex_digit (n / 4096 mod 16); hex_digit (n / 256 mod 16);
   hex_digit (n / 16 mod 16); hex_digit (n mod 16)].

Definition u_escape (n : N) : str := BACKSLASH :: 117 :: hex4 n.

(** The replacement of one character in [encode_basestring_ascii]: the
    short escapes, the printable ASCII characters as they are, [\uXXXX]
    for the rest of the basic plane and a surrogate pair above it. *)
Definition escape_char (c : N) : str :=
  if c =? QUOTE then [BACKSLASH; QUOTE]
  else if c =? BACKSLASH then [BACKSLASH; BACKSLASH]
  else if c =? 8 then [BACKSLASH; 98]
  else if c =? 12 then [BACKSLASH; 102]
  else if c =? 10 then [BACKSLASH; 110]
  else if c =? 13 then [BACKSLASH; 114]
  else if c =? 9 then [BACKSLASH; 116]
  else if (32 <=? c) && (c <=? 126) then [c]
  else if c <? 0x10000 then u_escape c
  else
    let n := c - 0x10000 in
    let s1 := N.lor 0xD800 (N.land (N.shiftr n 10) 0x3FF) in
    let s2 := N.lor 0xDC00 (N.land n 0x3FF) in
    u_escape s1 ++ u_escape s2.

Definition dumps_str (s : str) : str :=
  QUOTE :: flat_map escape_char s ++ [QUOTE].

Definition dumps_list (l : list str) : str :=
  91 :: join [COMMA; SPACE] (map dumps_str l) ++ [93].

Definition dumps_item (kv : str * str) : str :=
  dumps_str (fst kv) ++ [58; SPACE] ++ dumps_str (snd kv).

Definition dumps_dict (d : dict) : str :=
  123 :: join [COMMA; SPACE] (map dumps_item d) ++ [125].

(** *** Reading an object back

    [json.load] on a text that holds one object whose values are
    strings, which is what the alias-map artifact is; a value of another
    kind is outside this fragment and gives [None], as a syntax error
    does.  Hexadecimal escapes are read digit by digit. *)

Definition is_json_ws (c : N) : bool :=
  (c =? 32) || (c =? 9) || (c =? 10) || (c =? 13).

Fixpoint skip_ws (s : str) : str :=
  match s with
  | [] => []
  | c :: r => if is_json_ws c then skip_ws r else s
  end.

Definition hex_val (c : N) : option N :=
  if (48 <=? c) && (c <=? 57) then Some (c - 48)
  else if (97 <=? c) && (c <=? 102) then Some (c - 87)
  else if (65 <=? c) && (c <=? 70) then Some (c - 55)
  else None.

Definition hex4_val (a b c d : N) : option N :=
  match hex_val a, hex_val b, hex_val c, hex_val d with
  | Some x3, Some x2, Some x1, Some x0 =>
      Some (((x3 * 16 + x2) * 16 + x1) * 16 + x0)
  | _, _, _, _ => None
  end.

Definition unescape (e : N) : option N :=
  if e =? QUOTE then Some QUOTE
  else if e =? BACKSLASH then Some BACKSLASH
  else if e =? 47 then Some 47
  else if e =? 98 then Some 8
  else if e =? 102 then Some 12
  else if e =? 110 then Some 10
  else if e =? 114 then Some 13
  else if e =? 116 then Some 9
  else None.

Definition push (c : N) (r : option (str * str)) : option (str * str) :=
  match r with
  | Some (x, rest) => Some (c :: x, rest)
  | None => None
  end.

Definition is_high (u : N) : bool := (0xD800 <=? u) && (u <=? 0xDBFF).
Definition is_low (u : N) : bool := (0xDC00 <=? u) && (u <=? 0xDFFF).

(** [scanstring], from just after the opening quote: the string read
    and the text after its closing quote. *)
Fixpoint scanstring (s : str) : option (str * str) :=
  match s with
  | [] => None
  | c :: r =>
      if c =? QUOTE then Some ([], r)
      else if c =? BACKSLASH then
        match r with
        | [] => None
        | e :: r1 =>
            if e =? 117 then
              match r1 with
              | a :: b :: c' :: d :: r2 =>
                  match hex4_val a b c' d with
                  | None => None
                  | Some uni =>
                      if is_high uni then
                        match r2 with
                        | b1 :: u1 :: r2' =>
                            if (b1 =? BACKSLASH) && (u1 =? 117) then
                              match r2' with
                              | a2 :: b2 :: c2 :: d2 :: r3 =>
                                  match hex4_val a2 b2 c2 d2 with
                                  | None => None
                                  | Some uni2 =>
                                      if is_low uni2 then
                                        push (0x10000 +
                                              N.lor (N.shiftl (uni - 0xD800) 10)
                                                    (uni2 - 0xDC00))
                                             (scanstring r3)
                                      else push uni (scanstring r2)
                                  end
                              | _ => None
                              end
                            else push uni (scanstring r2)
                        | _ => push uni (scanstring r2)
                        end
                      else push uni (scanstring r2)
                  end
              | _ => None
              end
            else
              match unescape e with
              | Some x => push x (scanstring r1)
              | None => None
              end
        end
      else if c <? 32 then None
      else push c (scanstring r)
  end.

(** A quoted string at the head of the text. *)
Definition quoted (s : str) : option (str * str) :=
  match s with
  | c :: r => if c =? QUOTE then scanstring r else None
  | [] => None
  end.

(** The members of an object, from the opening quote of a key on: the
    pairs in order and the text after the closing brace.  Every round
    reads at least one character, so the length of the text is fuel
    enough. *)
Fixpoint members (fuel : nat) (s : str) : option (list (str * str) * str) :=
  match fuel with
  | O => None
  | S fuel' =>
      match quoted s with
      | None => None
      | Some (key, s1) =>
          match skip_ws s1 with
          | c :: s2 =>
              if c =? 58 then
                match quoted (skip_ws s2) with
                | None => None
                | Some (value, s3) =>
                    match skip_ws s3 with
                    | c' :: s4 =>
                        if c' =? 125 then Some ([(key, value)], s4)
                        else if c' =? COMMA then
                          match members fuel' (skip_ws s4) with
                          | Some (pairs, rest) =>
                              Some ((key, value) :: pairs, rest)
                          | None => None
                          end
                        else None
                    | [] => None
                    end
                end
              else None
          | [] => None
          end
      end
  end.

(** [dict(pairs)]: a later pair with the same key replaces the value. *)
Definition dict_of_pairs (pairs : list (str * str)) : dict :=
  fold_left (fun d kv => dict_set (fst kv) (snd kv) d) pairs [].

Definition loads_dict (s : str) : option dict :=
  match skip_ws s with
  | c :: s1 =>
      if c =? 123 then
        match skip_ws s1 with
        | c' :: s2 =>
            if c' =? 125 then
              match skip_ws s2 with [] => Some [] | _ => None end
            else
              match members (length s1) (skip_ws s1) with
              | Some (pairs, rest) =>
                  match skip_ws rest with
                  | [] => Some (dict_of_pairs pairs)
                  | _ => None
                  end
              | None => None
              end
        | [] => None
        end
      else None
  | [] => None
  end.

End Json.

(** ** The whole script, with the files it touches *)

Inductive exn := OSError | UnicodeDecodeError | IndexError.

(** [ingredients.txt]: absent or unreadable, holding bytes that do not
    decode, or a text. *)
Inductive input_file :=
| Missing
| Undecodable
| Text (content : str).

(** An output location: whether [open(_, "w")] succeeds there, and what
    the file holds ([None]: no such file). *)
Record output_file := mkOut {
  writable : bool;
  content : option str
}.

Record world := mkWorld {
  ingredients_txt : input_file;
  words_json : output_file;
  ingredients_json : output_file
}.

Definition write (f : output_file) (text : str) : output_file :=
  mkOut (writable f) (Some text).

Inductive outcome := Finished | Raised (e : exn).

Section Script.

Context {U : Unicode}.

(** Lines 7-22.  The loop touches nothing but its two accumulators, so
    where during the iteration a decoding error surfaces is not
    observable: it is raised before line 21 in any case. *)
Definition main (w : world) : outcome * world :=
  match ingredients_txt w with
  | Missing => (Raised OSError, w)
  | Undecodable => (Raised UnicodeDecodeError, w)
  | Text text =>
      match run (readlines text) with
      | None => (Raised IndexError, w)
      | Some st =>
          if writable (words_json w) then
            let w1 := mkWorld (ingredients_txt w)
                        (write (words_json w) (Json.dumps_list (words st)))
                        (ingredients_json w) in
            if writable (ingredients_json w) then
              (Finished,
               mkWorld (ingredients_txt w1) (words_json w1)
                 (write (ingredients_json w1)
                    (Json.dumps_dict (ingr_dict st))))
            else (Raised OSError, w1)
          else (Raised OSError, w)
      end
  end.

End Script.

(** ** Notions used in further statements *)



(** A printable ASCII character. *)
Definition is_printable (c : N) : bool := (32 <=? c) && (c <=? 126).

Module JsonArray.
Import Json.

(** [json.load] on a text that holds one array of strings, as the word
    list artifact does: the elements from the opening quote of one on,
    and the text after the closing bracket. *)
Fixpoint elements (fuel : nat) (s : str) : option (list str * str) :=
  match fuel with
  | O => None
  | S fuel' =>
      match quoted s with
      | None => None
      | Some (value, s1) =>
          match skip_ws s1 with
          | c :: s2 =>
              if c =? 93 then Some ([value], s2)
              else if c =? COMMA then
                match elements fuel' (skip_ws s2) with
                | Some (values, rest) => Some (value :: values, rest)
                | None => None
                end
              else None
          | [] => None
          end
      end
  end.

Definition loads_list (s : str) : option (list str) :=
  match skip_ws s with
  | c :: s1 =>
      if c =? 91 then
        match skip_ws s1 with
        | c' :: s2 =>
            if c' =? 93 then
              match skip_ws s2 with [] => Some [] | _ => None end
            else
              match elements (length s1) (skip_ws s1) with
              | Some (values, rest) =>
                  match skip_ws rest with
                  | [] => Some values
                  | _ => None
                  end
              | None => None
              end
        | [] => None
        end
      else None
  | [] => None
  end.

End JsonArray.

(** ** Inputs used as examples *)

Definition tomato_line : str := py "Tomato, tomatoes , ROMA TOMATO".
Definition salt_line : str := py "Salt".
Definition roma_line : str := py "Roma Tomato , tomato".

(** [Onion,onion] and then [Red Onion,onion], as a file gives them. *)
Definition onion_line : str := py "Onion,onion" ++ [LF].
Definition red_onion_line : str := py "Red Onion,onion" ++ [LF].
Definition onion_lines : list str := [onion_line; red_onion_line].

(** That file, with two writable output locations that hold nothing. *)
Definition onion_world : world :=
  mkWorld (Text (onion_line ++ red_onion_line))
          (mkOut true None) (mkOut true None).

(** [a], U+FF0C FULLWIDTH COMMA, [b]. *)
Definition wide_comma_line : str := [97; 0xFF0C; 98].

(** * Properties *)

(** ** Character classes *)

Ltac to_prop :=
  repeat match goal with
  | H : _ && _ = true |- _ => apply andb_true_iff in H; destruct H
  | H : _ || _ = true |- _ => apply orb_true_iff in H; destruct H
  | H : _ && _ = false |- _ => apply andb_false_iff in H; destruct H
  | H : _ || _ = false |- _ => apply orb_false_iff in H; destruct H
  | H : negb _ = true |- _ => apply negb_true_iff in H
  | H : negb _ = false |- _ => apply negb_false_iff in H
  | H : (_ <=? _) = true |- _ => apply N.leb_le in H
  | H : (_ <=? _) = false |- _ => apply N.leb_gt in H
  | H : (_ <? _) = true |- _ => apply N.ltb_lt in H
  | H : (_ <? _) = false |- _ => apply N.ltb_ge in H
  | H : (_ =? _) = true |- _ => apply N.eqb_eq in H
  | H : (_ =? _) = false |- _ => apply N.eqb_neq in H
  end.

Ltac case_cmp :=
  repeat (cbn [andb orb negb];
          match goal with
          | |- context [?a <=? ?b] => destruct (N.leb_spec a b)
          | |- context [?a <? ?b] => destruct (N.ltb_spec a b)
          | |- context [?a =? ?b] => destruct (N.eqb_spec a b)
          end);
  cbn [andb orb negb].

(** The two cases of [ascii_lower c]. *)
Ltac case_lower c :=
  unfold ascii_lower;
  destruct (N.leb_spec 65 c); destruct (N.leb_spec c 90); cbn [andb].

Lemma isspace_not_fullwidth c : isspace c = true -> is_fullwidth c = false.
Proof.
  unfold isspace, is_fullwidth; intros H.
  to_prop; subst; case_cmp; cbn [andb orb negb]; try reflexivity; lia.
Qed.

Lemma narrow_space c : isspace c = true -> narrow c = c.
Proof.
  intros H; unfold narrow; now rewrite (isspace_not_fullwidth c H).
Qed.

Lemma narrow_ascii c : is_ascii c = true -> narrow c = c.
Proof.
  unfold narrow, is_fullwidth, is_ascii; intros H; to_prop.
  case_cmp; cbn [andb orb negb]; try reflexivity; lia.
Qed.

Lemma narrow_scalar c : is_scalar c = true -> is_scalar (narrow c) = true.
Proof.
  unfold narrow, is_fullwidth; intros H.
  destruct (N.leb_spec 0xFF01 c); destruct (N.leb_spec c 0xFF5E);
    cbn [andb]; try exact H.
  unfold is_scalar; case_cmp; cbn [andb orb negb]; try reflexivity; lia.
Qed.

Lemma ascii_lower_idem c : ascii_lower (ascii_lower c) = ascii_lower c.
Proof.
  unfold ascii_lower.
  destruct (N.leb_spec 65 c); destruct (N.leb_spec c 90);
    cbn [andb]; case_cmp; cbn [andb]; try reflexivity; lia.
Qed.

Lemma ascii_lower_scalar c :
  is_scalar c = true -> is_scalar (ascii_lower c) = true.
Proof.
  unfold ascii_lower; intros H.
  destruct (N.leb_spec 65 c); destruct (N.leb_spec c 90);
    cbn [andb]; try exact H.
  unfold is_scalar; case_cmp; cbn [andb orb negb]; try reflexivity; lia.
Qed.

Lemma ascii_lower_ascii c :
  is_ascii c = true -> is_ascii (ascii_lower c) = true.
Proof.
  unfold is_ascii; intros H; to_prop.
  case_lower c; case_cmp; try reflexivity; lia.
Qed.

Lemma ascii_lower_space c : isspace c = true -> ascii_lower c = c.
Proof.
  unfold ascii_lower, isspace; intros H.
  destruct (N.leb_spec 65 c); destruct (N.leb_spec c 90);
    cbn [andb]; try reflexivity.
  to_prop; lia.
Qed.

Lemma ascii_lower_isspace c : isspace (ascii_lower c) = isspace c.
Proof.
  unfold ascii_lower.
  destruct (N.leb_spec 65 c); destruct (N.leb_spec c 90);
    cbn [andb]; try reflexivity.
  unfold isspace; case_cmp; cbn [andb orb negb]; try reflexivity; lia.
Qed.

Lemma forallb_map_imp (p q : N -> bool) (f : N -> N) s :
  (forall c, p c = true -> q (f c) = true) ->
  forallb p s = true -> forallb q (map f s) = true.
Proof.
  intros Hpq; induction s as [|c r IH]; simpl; [reflexivity|].
  intros H; apply andb_true_iff in H; destruct H as [Hc Hr].
  now rewrite (Hpq c Hc), (IH Hr).
Qed.

Lemma map_fixed (p : N -> bool) (f : N -> N) s :
  (forall c, p c = true -> f c = c) ->
  forallb p s = true -> map f s = s.
Proof.
  intros Hf; induction s as [|c r IH]; simpl; [reflexivity|].
  intros H; apply andb_true_iff in H; destruct H as [Hc Hr].
  now rewrite (Hf c Hc), (IH Hr).
Qed.

(** The tables restricted to ASCII and the fullwidth forms, every other
    character left as it is: a model of the facts assumed of the Unicode
    database, which agrees with it on texts made of those characters. *)
#[refine]
Instance basic_unicode : Unicode := {|
  nfkc := map narrow;
  lower := map ascii_lower
|}.
Proof.
  - reflexivity.
  - intros s; apply forallb_map_imp.
    intros c Hc; now rewrite (narrow_space c Hc).
  - intros s; apply forallb_map_imp, narrow_scalar.
  - reflexivity.
  - intros s; rewrite map_map; apply map_ext, ascii_lower_idem.
  - intros s; apply forallb_map_imp, ascii_lower_scalar.
Defined.

(** ** Stripping *)



Lemma lstrip_idem s : lstrip (lstrip s) = lstrip s.
Proof.
  induction s as [|c r IH]; simpl; [reflexivity|].
  destruct (isspace c) eqn:Hc; [exact IH|].
  simpl; now rewrite Hc.
Qed.

(** [lstrip] removes a prefix made of whitespace. *)
Lemma lstrip_split s :
  exists run, s = run ++ lstrip s /\ forallb isspace run = true.
Proof.
  induction s as [|c r [run [E H]]]; simpl.
  - now exists [].
  - destruct (isspace c) eqn:Hc.
    + exists (c :: run); simpl; rewrite Hc, H; split; [now f_equal|reflexivity].
    + now exists [].
Qed.

Lemma forallb_rev (p : N -> bool) s : forallb p (rev s) = forallb p s.
Proof.
  induction s as [|c r IH]; simpl; [reflexivity|].
  rewrite forallb_app, IH; simpl.
  rewrite andb_true_r; apply andb_comm.
Qed.


(** [strip] is the string between a whitespace prefix and a whitespace
    suffix, and what is left neither starts nor ends with whitespace. *)
Lemma strip_spec s :
  exists pre post,
    s = pre ++ strip s ++ post
    /\ forallb isspace pre = true /\ forallb isspace post = true
    /\ lstrip (strip s) = strip s
    /\ lstrip (rev (strip s)) = rev (strip s).
Proof.
  destruct (lstrip_split s) as [pre [E Hpre]].
  destruct (lstrip_split (rev (lstrip s))) as [tsop [E' Hpost]].
  exists pre, (rev tsop); unfold strip, rstrip.
  assert (Hm : lstrip s = rev (lstrip (rev (lstrip s))) ++ rev tsop).
  { rewrite <- rev_app_distr, <- E'; now rewrite rev_involutive. }
  repeat split.
  - now rewrite <- Hm.
  - exact Hpre.
  - now rewrite forallb_rev.
  - destruct (rev (lstrip (rev (lstrip s)))) as [|c r] eqn:Er;
      [reflexivity|].
    assert (Hl : lstrip (lstrip s) = lstrip s) by apply lstrip_idem.
    rewrite Hm in Hl; simpl in Hl.
    destruct (isspace c) eqn:Hc; simpl; rewrite Hc; [|reflexivity].
    exfalso.
    destruct (lstrip_split (r ++ rev tsop)) as [run [Erun _]].
    rewrite Hl in Erun.
    apply (f_equal (@length N)) in Erun.
    rewrite (length_app run) in Erun; simpl in Erun; lia.
  - rewrite rev_involutive; apply lstrip_idem.
Qed.

(** ** Splitting on the comma *)

Lemma split_sep_cons sep s : exists t ts, split_sep sep s = t :: ts.
Proof.
  destruct s as [|c r]; simpl; [now eexists; eexists|].
  destruct (c =? sep); [now eexists; eexists|].
  destruct (split_sep sep r); now eexists; eexists.
Qed.

(** No piece holds the separator, and joining the pieces with it gives
    the string back. *)
Lemma split_sep_join sep s : join [sep] (split_sep sep s) = s.
Proof.
  induction s as [|c r IH]; simpl; [reflexivity|].
  destruct (N.eqb_spec c sep) as [->|Hne].
  - destruct (split_sep_cons sep r) as [t [ts E]]; rewrite E in *.
    change (join [sep] ([] :: t :: ts))
      with ([] ++ [sep] ++ join [sep] (t :: ts)).
    now rewrite IH.
  - destruct (split_sep_cons sep r) as [t [ts E]]; rewrite E in *.
    destruct ts as [|t' ts]; [simpl in *; now rewrite IH|].
    change (join [sep] ((c :: t) :: t' :: ts))
      with (c :: t ++ [sep] ++ join [sep] (t' :: ts)).
    change (join [sep] (t :: t' :: ts))
      with (t ++ [sep] ++ join [sep] (t' :: ts)) in IH.
    now rewrite IH.
Qed.

Lemma split_sep_pieces sep s :
  Forall (fun t => ~ In sep t) (split_sep sep s).
Proof.
  induction s as [|c r IH]; simpl; [now constructor|].
  destruct (N.eqb_spec c sep) as [->|Hne].
  - constructor; [now intros []|exact IH].
  - destruct (split_sep sep r) as [|t ts]; constructor.
    + intros [H|[]]; now apply Hne.
    + constructor.
    + inversion IH; subst. intros [H|H]; [now apply Hne|contradiction].
    + now inversion IH.
Qed.

Lemma split_sep_none sep s : ~ In sep s -> split_sep sep s = [s].
Proof.
  induction s as [|c r IH]; simpl; [reflexivity|].
  intros H; destruct (N.eqb_spec c sep) as [->|Hne]; [now elim H; left|].
  rewrite IH; [reflexivity|]; intros Hin; apply H; now right.
Qed.

(** One more piece than there are separators. *)
Lemma split_sep_length sep s :
  length (split_sep sep s) = S (count_occ N.eq_dec s sep).
Proof.
  induction s as [|c r IH]; simpl; [reflexivity|].
  destruct (N.eqb_spec c sep) as [->|Hne].
  - destruct (N.eq_dec sep sep); [simpl; now rewrite IH|contradiction].
  - destruct (N.eq_dec c sep) as [->|_]; [contradiction|].
    destruct (split_sep_cons sep r) as [t [ts E]]; rewrite E in *.
    exact IH.
Qed.

(** ** Substituting whitespace *)

Lemma re_sub_space_filter s :
  re_sub_space [] s = filter (fun c => negb (isspace c)) s.
Proof.
  induction s as [|c r IH]; simpl; [reflexivity|].
  destruct (isspace c); simpl; now rewrite IH.
Qed.

Lemma re_sub_space_no_space s :
  forallb (fun c => negb (isspace c)) (re_sub_space [] s) = true.
Proof.
  induction s as [|c r IH]; simpl; [reflexivity|].
  destruct (isspace c) eqn:Hc; [exact IH|].
  simpl; now rewrite Hc, IH.
Qed.

(** Inside a match, further whitespace is swallowed. *)
Lemma re_sub_spaces_in_run repl run s :
  forallb isspace run = true ->
  re_sub_spaces_from repl true (run ++ s) = re_sub_spaces_from repl true s.
Proof.
  induction run as [|c r IH]; simpl; [reflexivity|].
  intros H; apply andb_true_iff in H; destruct H as [Hc Hr].
  now rewrite Hc, IH.
Qed.

(** Where the text does not go on with whitespace, it does not matter
    whether a match has just ended. *)
Lemma re_sub_spaces_flag repl b s :
  lstrip s = s ->
  re_sub_spaces_from repl b s = re_sub_spaces_from repl false s.
Proof.
  destruct s as [|c r]; simpl; [reflexivity|].
  destruct (isspace c) eqn:Hc; [|reflexivity].
  intros H; exfalso.
  destruct (lstrip_split r) as [run [E _]].
  rewrite H in E; apply (f_equal (@length N)) in E.
  rewrite length_app in E; simpl in E; lia.
Qed.

Lemma collapsed_sound s t :
  collapsed s t -> t = re_sub_spaces [SPACE] s.
Proof.
  unfold re_sub_spaces; induction 1 as [|c s t Hc _ IH|run s t Hne Hrun Hs _ IH].
  - reflexivity.
  - simpl; rewrite Hc; now f_equal.
  - destruct run as [|c run]; [contradiction|].
    simpl in Hrun; apply andb_true_iff in Hrun; destruct Hrun as [Hc Hrun].
    simpl; rewrite Hc; f_equal.
    now rewrite re_sub_spaces_in_run, re_sub_spaces_flag.
Qed.

Lemma collapsed_complete_le n s :
  (length s <= n)%nat -> collapsed s (re_sub_spaces [SPACE] s).
Proof.
  unfold re_sub_spaces; revert s; induction n as [|n IH]; intros s Hn.
  - destruct s; [constructor|simpl in Hn; lia].
  - destruct s as [|c r]; [constructor|].
    simpl in Hn; simpl; destruct (isspace c) eqn:Hc.
    + destruct (lstrip_split r) as [run [E Hrun]].
      assert (Hlen : (length (lstrip r) <= n)%nat).
      { apply (f_equal (@length N)) in E; rewrite length_app in E; lia. }
      rewrite E at 1 2.
      rewrite re_sub_spaces_in_run by exact Hrun.
      rewrite re_sub_spaces_flag by apply lstrip_idem.
      change (c :: run ++ lstrip r) with ((c :: run) ++ lstrip r).
      apply collapsed_run.
      * discriminate.
      * simpl; now rewrite Hc.
      * apply lstrip_idem.
      * now apply IH.
    + apply collapsed_char; [exact Hc|apply IH; lia].
Qed.

(** [re.sub(r"\s+", " ", s)] is the collapsed form of [s], and the only
    one. *)
Lemma collapsed_iff s t : collapsed s t <-> t = re_sub_spaces [SPACE] s.
Proof.
  split; [apply collapsed_sound|].
  intros ->; now apply (collapsed_complete_le (length s)).
Qed.

(** ** Splitting on whitespace *)

Lemma split_ws_from_concat cur s :
  concat (split_ws_from cur s) = rev cur ++ re_sub_space [] s.
Proof.
  revert cur; induction s as [|c r IH]; intros cur; simpl.
  - destruct cur; simpl; [reflexivity|now rewrite !app_nil_r].
  - destruct (isspace c).
    + destruct cur; simpl; now rewrite IH.
    + rewrite IH; simpl; now rewrite <- app_assoc.
Qed.

(** The words of a string, put together, are the string without its
    whitespace: the alias key of a token is its words concatenated. *)
Lemma split_ws_concat s : concat (split_ws s) = re_sub_space [] s.
Proof. apply split_ws_from_concat. Qed.

Lemma split_ws_from_words cur s :
  forallb (fun c => negb (isspace c)) cur = true ->
  Forall (fun w => w <> [] /\ forallb (fun c => negb (isspace c)) w = true)
         (split_ws_from cur s).
Proof.
  assert (Hrev : forall c cur',
    forallb (fun c => negb (isspace c)) (c :: cur') = true ->
    rev (c :: cur') <> []
    /\ forallb (fun c => negb (isspace c)) (rev (c :: cur')) = true).
  { intros c cur' H; split; [|now rewrite forallb_rev].
    simpl; intros E; apply app_eq_nil in E; destruct E; discriminate. }
  revert cur; induction s as [|c r IH]; intros cur Hcur; simpl.
  - destruct cur; constructor; [now apply Hrev|constructor].
  - destruct (isspace c) eqn:Hc.
    + destruct cur; [now apply IH|].
      constructor; [now apply Hrev|now apply IH].
    + apply IH; simpl; now rewrite Hc.
Qed.

(** Every word [split()] gives is non-empty and free of whitespace. *)
Lemma split_ws_words s :
  Forall (fun w => w <> [] /\ forallb (fun c => negb (isspace c)) w = true)
         (split_ws s).
Proof. now apply split_ws_from_words. Qed.

Lemma split_ws_all_space s : forallb isspace s = true -> split_ws s = [].
Proof.
  unfold split_ws; induction s as [|c r IH]; simpl; [reflexivity|].
  intros H; apply andb_true_iff in H; destruct H as [Hc Hr].
  now rewrite Hc, IH.
Qed.

(** ** The dictionary *)

Lemma dict_get_set_eq k v d : dict_get k (dict_set k v d) = Some v.
Proof.
  induction d as [|[k' v'] r IH]; simpl.
  - destruct (str_eq_dec k k); [reflexivity|contradiction].
  - destruct (str_eq_dec k k') as [E|E]; simpl.
    + destruct (str_eq_dec k k); [reflexivity|contradiction].
    + destruct (str_eq_dec k k'); [contradiction|exact IH].
Qed.

Lemma dict_get_set_neq k k' v d :
  k' <> k -> dict_get k' (dict_set k v d) = dict_get k' d.
Proof.
  intros Hne; induction d as [|[k0 v0] r IH]; simpl.
  - destruct (str_eq_dec k' k); [contradiction|reflexivity].
  - destruct (str_eq_dec k k0) as [E|E]; simpl.
    + subst k0.
      destruct (str_eq_dec k' k); [contradiction|reflexivity].
    + destruct (str_eq_dec k' k0); [reflexivity|exact IH].
Qed.

Lemma dict_keys_set k v d :
  dict_keys (dict_set k v d)
  = if in_dec str_eq_dec k (dict_keys d) then dict_keys d
    else dict_keys d ++ [k].
Proof.
  unfold dict_keys; induction d as [|[k' v'] r IH]; simpl; [reflexivity|].
  destruct (str_eq_dec k k') as [E|E]; simpl.
  - subst k'; destruct (str_eq_dec k k); [reflexivity|contradiction].
  - destruct (str_eq_dec k' k) as [E'|E']; [now elim E|].
    rewrite IH; now destruct (in_dec str_eq_dec k (map fst r)).
Qed.

(** Assignment keeps the keys of a dictionary distinct. *)
Lemma dict_set_NoDup k v d :
  NoDup (dict_keys d) -> NoDup (dict_keys (dict_set k v d)).
Proof.
  intros H; rewrite dict_keys_set.
  destruct (in_dec str_eq_dec k (dict_keys d)) as [Hin|Hin]; [exact H|].
  apply NoDup_app; [exact H|repeat constructor; now intros []|].
  intros x Hx [<-|[]]; contradiction.
Qed.

Lemma dict_get_In k d :
  In k (dict_keys d) <-> exists v, dict_get k d = Some v.
Proof.
  unfold dict_keys; induction d as [|[k' v'] r IH]; simpl.
  - split; [intros []|intros [v Hv]; discriminate].
  - destruct (str_eq_dec k k') as [E|E].
    + split; [now exists v'|now left].
    + rewrite <- IH; split; [intros [H|H]; [now elim E|exact H]|now right].
Qed.

(** A key of a dictionary with distinct keys occurs there once. *)
Lemma dict_key_once k d :
  NoDup (dict_keys d) -> In k (dict_keys d) ->
  count_occ str_eq_dec (dict_keys d) k = 1%nat.
Proof.
  intros Hnd Hin.
  pose proof (proj1 (NoDup_count_occ str_eq_dec _) Hnd k) as Hle.
  pose proof (proj1 (count_occ_In str_eq_dec _ k) Hin) as Hge.
  lia.
Qed.

Lemma assign_all_NoDup v keys d :
  NoDup (dict_keys d) -> NoDup (dict_keys (assign_all v keys d)).
Proof.
  unfold assign_all; revert d; induction keys as [|k r IH]; intros d H;
    simpl; [exact H|].
  now apply IH, dict_set_NoDup.
Qed.

Lemma assign_all_other v keys d k :
  ~ In k keys -> dict_get k (assign_all v keys d) = dict_get k d.
Proof.
  unfold assign_all; revert d; induction keys as [|k' r IH]; intros d H;
    simpl; [reflexivity|].
  rewrite IH by (intros Hin; apply H; now right).
  apply dict_get_set_neq; intros ->; apply H; now left.
Qed.

Lemma assign_all_in v keys d k :
  In k keys -> dict_get k (assign_all v keys d) = Some v.
Proof.
  unfold assign_all; revert d; induction keys as [|k' r IH]; intros d H;
    simpl; [contradiction|].
  destruct (in_dec str_eq_dec k r) as [Hin|Hout]; [now apply IH|].
  destruct H as [->|H]; [|contradiction].
  fold (assign_all v r (dict_set k v d)).
  rewrite assign_all_other by exact Hout.
  apply dict_get_set_eq.
Qed.

Lemma state_eta st : st = mkState (ingr_dict st) (words st).
Proof. now destruct st. Qed.

(** ** The loop *)

Section Loop.

Context {U : Unicode}.

Lemma tokens_cons line : exists first rest, tokens line = first :: rest.
Proof. apply split_sep_cons. Qed.

(** The body of the outer loop never raises. *)
Lemma process_line_step st line : process_line st line = Some (step st line).
Proof.
  unfold process_line, step, line_canonical.
  destruct (tokens_cons line) as [first [rest E]]; now rewrite E.
Qed.

Lemma run_from_steps st lines :
  run_from st lines = Some (fold_left step lines st).
Proof.
  revert st; induction lines as [|line rest IH]; intros st; simpl;
    [reflexivity|].
  now rewrite process_line_step, IH.
Qed.

Lemma index_fold_dict c toks st :
  ingr_dict (fold_left (index_token c) toks st)
  = assign_all c (map alias_key toks) (ingr_dict st).
Proof.
  unfold assign_all; revert st; induction toks as [|t r IH]; intros st;
    simpl; [reflexivity|].
  now rewrite IH.
Qed.

Lemma index_fold_words c toks st :
  words (fold_left (index_token c) toks st)
  = words st ++ flat_map (fun ingr => split_ws (clean ingr)) toks.
Proof.
  revert st; induction toks as [|t r IH]; intros st; simpl;
    [now rewrite app_nil_r|].
  rewrite IH; simpl; now rewrite <- app_assoc.
Qed.

Lemma step_dict st line :
  ingr_dict (step st line)
  = assign_all (line_canonical line) (line_keys line) (ingr_dict st).
Proof. apply index_fold_dict. Qed.

Lemma step_words st line :
  words (step st line) = words st ++ line_words line.
Proof. apply index_fold_words. Qed.

Lemma step_record st line :
  step st line
  = mkState (assign_all (line_canonical line) (line_keys line) (ingr_dict st))
            (words st ++ line_words line).
Proof.
  rewrite (state_eta (step st line)); now rewrite step_dict, step_words.
Qed.

Lemma steps_words lines st :
  words (fold_left step lines st) = words st ++ flat_map line_words lines.
Proof.
  revert st; induction lines as [|line rest IH]; intros st; simpl;
    [now rewrite app_nil_r|].
  rewrite IH, step_words; now rewrite <- app_assoc.
Qed.

Lemma steps_NoDup lines st :
  NoDup (dict_keys (ingr_dict st)) ->
  NoDup (dict_keys (ingr_dict (fold_left step lines st))).
Proof.
  revert st; induction lines as [|line rest IH]; intros st H; simpl;
    [exact H|].
  apply IH; rewrite step_dict; now apply assign_all_NoDup.
Qed.

(** Lines that do not produce a key leave its binding alone. *)
Lemma steps_other lines st k :
  (forall line, In line lines -> ~ In k (line_keys line)) ->
  dict_get k (ingr_dict (fold_left step lines st))
  = dict_get k (ingr_dict st).
Proof.
  revert st; induction lines as [|line rest IH]; intros st H; simpl;
    [reflexivity|].
  rewrite IH by (intros l Hl; apply H; now right).
  rewrite step_dict; apply assign_all_other, H; now left.
Qed.

(** The last line that produces a key decides its binding. *)
Lemma steps_last before line after st k :
  In k (line_keys line) ->
  (forall later, In later after -> ~ In k (line_keys later)) ->
  dict_get k (ingr_dict (fold_left step (before ++ line :: after) st))
  = Some (line_canonical line).
Proof.
  intros Hin Hafter.
  rewrite fold_left_app; simpl.
  rewrite steps_other by exact Hafter.
  rewrite step_dict; now apply assign_all_in.
Qed.

(** Among lines of which one produces a key, one does so last. *)
Lemma last_producer lines k :
  (exists line, In line lines /\ In k (line_keys line)) ->
  exists before line after,
    lines = before ++ line :: after
    /\ In k (line_keys line)
    /\ forall later, In later after -> ~ In k (line_keys later).
Proof.
  induction lines as [|l rest IH]; intros [line [Hl Hk]]; [contradiction|].
  destruct (Exists_dec (fun x => In k (line_keys x)) rest) as [Hex|Hno].
  - intros x; apply in_dec, str_eq_dec.
  - apply Exists_exists in Hex.
    destruct (IH Hex) as [before [line' [after [E [Hin Hafter]]]]].
    exists (l :: before), line', after; rewrite E; now repeat split.
  - exists [], l, rest; repeat split.
    + destruct Hl as [->|Hl]; [exact Hk|].
      elim Hno; apply Exists_exists; now exists line.
    + intros later Hlater Hin; apply Hno, Exists_exists; now exists later.
Qed.

End Loop.

(** ** ASCII lines

    On a line of ASCII characters the pipeline does not depend on the
    Unicode tables: it is the one of [basic_unicode], which computes. *)

Lemma lstrip_forallb (p : N -> bool) s :
  forallb p s = true -> forallb p (lstrip s) = true.
Proof.
  induction s as [|c r IH]; simpl; [reflexivity|].
  intros H; destruct (isspace c); [|exact H].
  apply andb_true_iff in H; now apply IH.
Qed.

Lemma strip_forallb (p : N -> bool) s :
  forallb p s = true -> forallb p (strip s) = true.
Proof.
  intros H; unfold strip, rstrip.
  rewrite forallb_rev; apply lstrip_forallb.
  rewrite forallb_rev; now apply lstrip_forallb.
Qed.

Lemma split_sep_forallb (p : N -> bool) sep s :
  forallb p s = true ->
  Forall (fun t => forallb p t = true) (split_sep sep s).
Proof.
  induction s as [|c r IH]; simpl; [now repeat constructor|].
  intros H; apply andb_true_iff in H; destruct H as [Hc Hr].
  specialize (IH Hr).
  destruct (c =? sep); [now constructor|].
  destruct (split_sep sep r) as [|t ts]; [now repeat constructor; simpl; rewrite Hc|].
  inversion IH; subst; constructor; [simpl; now rewrite Hc|assumption].
Qed.

Lemma re_sub_space_forallb (p : N -> bool) s :
  forallb p s = true -> forallb p (re_sub_space [] s) = true.
Proof.
  induction s as [|c r IH]; simpl; [reflexivity|].
  intros H; apply andb_true_iff in H; destruct H as [Hc Hr].
  destruct (isspace c); simpl; [now apply IH|now rewrite Hc, IH].
Qed.

Lemma re_sub_spaces_forallb (p : N -> bool) b s :
  p SPACE = true ->
  forallb p s = true -> forallb p (re_sub_spaces_from [SPACE] b s) = true.
Proof.
  intros Hsp; revert b; induction s as [|c r IH]; intros b; simpl;
    [reflexivity|].
  intros H; apply andb_true_iff in H; destruct H as [Hc Hr].
  destruct (isspace c); [destruct b|]; simpl;
    rewrite ?Hsp, ?Hc; now apply IH.
Qed.

Lemma split_ws_from_forallb (p : N -> bool) cur s :
  forallb p cur = true -> forallb p s = true ->
  Forall (fun w => forallb p w = true) (split_ws_from cur s).
Proof.
  revert cur; induction s as [|c r IH]; intros cur Hcur; simpl.
  - intros _; destruct cur; constructor; [now rewrite forallb_rev|constructor].
  - intros H; apply andb_true_iff in H; destruct H as [Hc Hr].
    destruct (isspace c).
    + destruct cur; [now apply IH|].
      constructor; [now rewrite forallb_rev|now apply IH].
    + apply IH; [simpl; now rewrite Hc|exact Hr].
Qed.

Section Ascii.

Context {U : Unicode}.

Lemma nfkc_ascii s : forallb is_ascii s = true -> nfkc s = s.
Proof.
  intros H; rewrite nfkc_wide.
  - now apply (map_fixed is_ascii), H; apply narrow_ascii.
  - rewrite forallb_forall in *; intros c Hc; now rewrite (H c Hc).
Qed.

Lemma lower_lower_ascii s :
  forallb is_ascii s = true -> lower (lower s) = map ascii_lower s.
Proof. intros H; rewrite lower_idem; now apply lower_ascii. Qed.

Lemma tokens_ascii line :
  forallb is_ascii line = true ->
  tokens line = tokens (U := basic_unicode) line
  /\ Forall (fun t => forallb is_ascii t = true) (tokens line).
Proof.
  intros H; unfold tokens.
  rewrite (nfkc_ascii line H).
  assert (E : nfkc (Unicode := basic_unicode) line = line).
  { simpl; now apply (map_fixed is_ascii), H; apply narrow_ascii. }
  rewrite E; split; [reflexivity|].
  now apply split_sep_forallb, strip_forallb.
Qed.

Lemma clean_ascii t :
  forallb is_ascii t = true -> clean t = clean (U := basic_unicode) t.
Proof.
  intros H; unfold clean.
  rewrite lower_lower_ascii by now apply strip_forallb.
  simpl; rewrite map_map; symmetry; apply map_ext, ascii_lower_idem.
Qed.

Lemma canonical_form_ascii t :
  forallb is_ascii t = true ->
  canonical_form t = canonical_form (U := basic_unicode) t.
Proof.
  intros H; unfold canonical_form.
  rewrite lower_lower_ascii by exact H.
  simpl; rewrite map_map; f_equal; symmetry; apply map_ext, ascii_lower_idem.
Qed.

Lemma index_fold_ascii c toks st :
  Forall (fun t => forallb is_ascii t = true) toks ->
  fold_left (index_token c) toks st
  = fold_left (index_token (U := basic_unicode) c) toks st.
Proof.
  intros H; revert st; induction H as [|t r Ht _ IH]; intros st; simpl;
    [reflexivity|].
  rewrite IH; f_equal; unfold index_token; now rewrite (clean_ascii t Ht).
Qed.

Lemma hd_ascii toks :
  Forall (fun t => forallb is_ascii t = true) toks ->
  forallb is_ascii (hd [] toks) = true.
Proof. intros H; destruct H; [reflexivity|assumption]. Qed.

Lemma line_canonical_ascii line :
  forallb is_ascii line = true ->
  line_canonical line = line_canonical (U := basic_unicode) line.
Proof.
  intros H; destruct (tokens_ascii line H) as [E Hall].
  unfold line_canonical; rewrite <- E.
  now apply canonical_form_ascii, hd_ascii.
Qed.

Lemma step_ascii st line :
  forallb is_ascii line = true ->
  step st line = step (U := basic_unicode) st line.
Proof.
  intros H; destruct (tokens_ascii line H) as [E Hall].
  unfold step; rewrite (line_canonical_ascii line H).
  rewrite index_fold_ascii by exact Hall.
  now rewrite E.
Qed.

Lemma process_line_ascii st line :
  forallb is_ascii line = true ->
  process_line st line = process_line (U := basic_unicode) st line.
Proof.
  intros H; rewrite !process_line_step; f_equal; now apply step_ascii.
Qed.

Lemma run_from_ascii lines st :
  Forall (fun line => forallb is_ascii line = true) lines ->
  run_from st lines = run_from (U := basic_unicode) st lines.
Proof.
  intros H; revert st; induction H as [|line rest Hl _ IH]; intros st;
    simpl; [reflexivity|].
  rewrite (process_line_ascii st line Hl).
  destruct (process_line (U := basic_unicode) st line); [apply IH|reflexivity].
Qed.

Lemma line_keys_ascii line :
  forallb is_ascii line = true ->
  line_keys line = line_keys (U := basic_unicode) line.
Proof.
  intros H; destruct (tokens_ascii line H) as [E Hall].
  unfold line_keys; rewrite E in *.
  apply map_ext_in; intros t Ht; unfold alias_key.
  rewrite Forall_forall in Hall; now rewrite (clean_ascii t (Hall t Ht)).
Qed.

Lemma line_words_ascii line :
  forallb is_ascii line = true ->
  line_words line = line_words (U := basic_unicode) line.
Proof.
  intros H; destruct (tokens_ascii line H) as [E Hall].
  unfold line_words; rewrite E in *.
  rewrite Forall_forall in Hall; clear E.
  induction (tokens (U := basic_unicode) line) as [|t r IH];
    simpl; [reflexivity|].
  rewrite (clean_ascii t) by (apply Hall; now left).
  f_equal; apply IH; intros x Hx; apply Hall; now right.
Qed.

(** What an ASCII line does to a state, by computation. *)
Lemma step_ascii_record st line :
  forallb is_ascii line = true ->
  step st line
  = mkState (assign_all (line_canonical (U := basic_unicode) line)
                        (line_keys (U := basic_unicode) line) (ingr_dict st))
            (words st ++ line_words (U := basic_unicode) line).
Proof.
  intros H; rewrite step_record.
  now rewrite (line_canonical_ascii line H), (line_keys_ascii line H),
    (line_words_ascii line H).
Qed.

End Ascii.

(** ** Helpers for the statements *)

Lemma strip_In c s : In c (strip s) -> In c s.
Proof.
  intros H; destruct (strip_spec s) as [pre [post [E _]]].
  rewrite E; apply in_or_app; right; apply in_or_app; now left.
Qed.



(** * The claims *)

Section Claims.

Context {U : Unicode}.

(** C1, as amended.  For every line of the input and every
    comma-separated token of it, the key of the token (the token
    stripped, lowercased and with all its whitespace removed) is bound in
    the final alias map.  Its value is the canonical form of the last
    line, from the token's own line on, one of whose tokens has that key;
    it is the canonical form of the token's own line when no later line
    produces the key. *)
Theorem C1_alias_key_bound before line after tok :
  In tok (tokens line) ->
  exists final,
    run (before ++ line :: after) = Some final
    /\ alias_key tok
       = filter (fun c => negb (isspace c)) (lower (strip tok))
    /\ (exists pre last post,
          line :: after = pre ++ last :: post
          /\ In (alias_key tok) (line_keys last)
          /\ (forall later, In later post ->
                ~ In (alias_key tok) (line_keys later))
          /\ dict_get (alias_key tok) (ingr_dict final)
             = Some (line_canonical last))
    /\ ((forall later, In later after ->
           ~ In (alias_key tok) (line_keys later)) ->
        dict_get (alias_key tok) (ingr_dict final)
        = Some (line_canonical line)).
Proof.
  intros Htok.
  assert (Hkey : In (alias_key tok) (line_keys line))
    by (unfold line_keys; now apply in_map).
  exists (fold_left step (before ++ line :: after) initial).
  split; [apply run_from_steps|].
  split; [unfold alias_key, clean;
          now rewrite lower_idem, re_sub_space_filter|].
  split.
  - destruct (last_producer (line :: after) (alias_key tok))
      as [pre [last [post [E [Hin Hpost]]]]].
    { exists line; split; [now left|exact Hkey]. }
    exists pre, last, post; repeat split; try assumption.
    replace (before ++ line :: after) with ((before ++ pre) ++ last :: post)
      by (rewrite <- app_assoc; now rewrite <- E).
    now apply steps_last.
  - intros Hafter; now apply steps_last.
Qed.


(** C3.  When tokens of two different lines produce the same key, the
    run ends without error and the final alias map binds the key once,
    to the canonical form of the last line in file order that produces
    it. *)
Theorem C3_last_write_wins l1 earlier l2 last l3 k :
  In k (line_keys earlier) ->
  In k (line_keys last) ->
  (forall later, In later l3 -> ~ In k (line_keys later)) ->
  exists final,
    run (l1 ++ earlier :: l2 ++ last :: l3) = Some final
    /\ dict_get k (ingr_dict final) = Some (line_canonical last)
    /\ count_occ str_eq_dec (dict_keys (ingr_dict final)) k = 1%nat.
Proof.
  intros _ Hlast Hl3.
  exists (fold_left step (l1 ++ earlier :: l2 ++ last :: l3) initial).
  split; [apply run_from_steps|].
  assert (Hget : dict_get k
                   (ingr_dict
                      (fold_left step (l1 ++ earlier :: l2 ++ last :: l3)
                                 initial))
                 = Some (line_canonical last)).
  { replace (l1 ++ earlier :: l2 ++ last :: l3)
      with ((l1 ++ earlier :: l2) ++ last :: l3)
      by (rewrite <- app_assoc; reflexivity).
    now apply steps_last. }
  split; [exact Hget|].
  apply dict_key_once.
  - apply steps_NoDup; constructor.
  - apply dict_get_In; eexists; exact Hget.
Qed.

(** C4.  Processing a line stores, for every alias key of the line, one
    value: the first comma-separated token of the stripped, normalized
    line, lowercased, with every maximal run of whitespace replaced by a
    single space and nothing else done to it. *)
Theorem C4_canonical_form st line :
  exists first rest,
    split_sep COMMA (strip (nfkc line)) = first :: rest
    /\ process_line st line = Some (step st line)
    /\ line_canonical line = re_sub_spaces [SPACE] (lower first)
    /\ collapsed (lower first) (line_canonical line)
    /\ forall k, In k (line_keys line) ->
         dict_get k (ingr_dict (step st line)) = Some (line_canonical line).
Proof.
  destruct (tokens_cons line) as [first [rest E]].
  exists first, rest.
  assert (Hc : line_canonical line = re_sub_spaces [SPACE] (lower first)).
  { unfold line_canonical, canonical_form; rewrite E; simpl.
    now rewrite lower_idem. }
  split; [exact E|].
  split; [apply process_line_step|].
  split; [exact Hc|].
  split; [now apply collapsed_iff|].
  intros k Hk; rewrite step_dict; now apply assign_all_in.
Qed.

(** C5, as amended.  The tokens of a line are the pieces, in order,
    between the commas of the NFKC-normalized line stripped of leading
    and trailing whitespace: there is at least one, none holds a comma,
    and joined by commas they give the stripped normalized line back.  A
    line whose normalized form holds no comma, hence an ASCII line that
    holds none, gives exactly one token. *)
Theorem C5_tokens line :
  tokens line = split_sep COMMA (strip (nfkc line))
  /\ (exists pre post,
        nfkc line = pre ++ strip (nfkc line) ++ post
        /\ forallb isspace pre = true /\ forallb isspace post = true
        /\ lstrip (strip (nfkc line)) = strip (nfkc line)
        /\ lstrip (rev (strip (nfkc line))) = rev (strip (nfkc line)))
  /\ (exists first rest, tokens line = first :: rest)
  /\ Forall (fun t => ~ In COMMA t) (tokens line)
  /\ join [COMMA] (tokens line) = strip (nfkc line)
  /\ length (tokens line)
     = S (count_occ N.eq_dec (strip (nfkc line)) COMMA)
  /\ (~ In COMMA (nfkc line) -> tokens line = [strip (nfkc line)])
  /\ (forallb is_ascii line = true -> ~ In COMMA line ->
      tokens line = [strip line]).
Proof.
  split; [reflexivity|].
  split; [apply strip_spec|].
  split; [apply tokens_cons|].
  split; [apply split_sep_pieces|].
  split; [apply split_sep_join|].
  split; [apply split_sep_length|].
  split.
  - intros H; apply split_sep_none; intros Hin; now apply H, strip_In.
  - intros Hascii H; unfold tokens; rewrite (nfkc_ascii line Hascii).
    apply split_sep_none; intros Hin; now apply H, strip_In.
Qed.

(** C6.  On the line [Tomato, tomatoes , ROMA TOMATO] the canonical form
    is [tomato]; the keys [tomato], [tomatoes] and [romatomato] are
    assigned it, in that order, and the words [tomato], [tomatoes],
    [roma], [tomato] are appended.  On the line [Salt] the canonical form
    is [salt], the key [salt] is assigned it and the word [salt] is
    appended.  The same holds of the lines with their line feed. *)
Theorem C6_examples st :
  line_canonical tomato_line = py "tomato"
  /\ process_line st tomato_line
     = Some (mkState
               (assign_all (py "tomato")
                  [py "tomato"; py "tomatoes"; py "romatomato"]
                  (ingr_dict st))
               (words st
                ++ [py "tomato"; py "tomatoes"; py "roma"; py "tomato"]))
  /\ process_line initial tomato_line
     = Some (mkState
               [(py "tomato", py "tomato"); (py "tomatoes", py "tomato");
                (py "romatomato", py "tomato")]
               [py "tomato"; py "tomatoes"; py "roma"; py "tomato"])
  /\ line_canonical salt_line = py "salt"
  /\ process_line st salt_line
     = Some (mkState (dict_set (py "salt") (py "salt") (ingr_dict st))
                     (words st ++ [py "salt"]))
  /\ process_line initial salt_line
     = Some (mkState [(py "salt", py "salt")] [py "salt"])
  /\ process_line st (tomato_line ++ [LF]) = process_line st tomato_line
  /\ process_line st (salt_line ++ [LF]) = process_line st salt_line.
Proof.
  repeat split;
    rewrite ?process_line_step, ?line_canonical_ascii, ?step_ascii_record
      by reflexivity;
    reflexivity.
Qed.



End Claims.

(** C1, as stated, fails.  The file [Onion,onion], [Red Onion,onion]:
    the token [onion] of the first line has the key [onion] and the
    canonical form of that line is [onion], yet the final alias map binds
    [onion] to [red onion], the canonical form of the second line.  This
    is so whatever the Unicode tables, the input being ASCII. *)
Lemma C1_counterexample :
  In onion_line onion_lines
  /\ forall U : Unicode,
       In (py "onion") (tokens onion_line)
       /\ alias_key (py "onion") = py "onion"
       /\ line_canonical onion_line = py "onion"
       /\ exists final,
            run onion_lines = Some final
            /\ dict_get (alias_key (py "onion")) (ingr_dict final)
               = Some (py "red onion")
            /\ dict_get (alias_key (py "onion")) (ingr_dict final)
               <> Some (line_canonical onion_line).
Proof.
  split; [now left|intros U].
  assert (Hkey : alias_key (py "onion") = py "onion")
    by (unfold alias_key; now rewrite clean_ascii).
  assert (Hcan : line_canonical onion_line = py "onion")
    by now rewrite line_canonical_ascii.
  split; [rewrite (proj1 (tokens_ascii onion_line eq_refl)); right; now left|].
  split; [exact Hkey|].
  split; [exact Hcan|].
  exists (fold_left (step (U := basic_unicode)) onion_lines initial).
  rewrite Hkey, Hcan.
  split; [unfold run; rewrite run_from_ascii by (repeat constructor);
          apply run_from_steps|].
  split; [reflexivity|discriminate].
Qed.

(** C1 at the token [onion] of the second line of that file. *)
Lemma C1_witness :
  In (py "onion") (tokens (U := basic_unicode) red_onion_line)
  /\ exists final,
       run (U := basic_unicode) onion_lines = Some final
       /\ dict_get (py "onion") (ingr_dict final) = Some (py "red onion").
Proof.
  assert (Htok : In (py "onion") (tokens (U := basic_unicode) red_onion_line))
    by (right; left; reflexivity).
  split; [exact Htok|].
  destruct (C1_alias_key_bound (U := basic_unicode)
              [onion_line] red_onion_line [] (py "onion") Htok)
    as [final [Hrun [_ [_ Hlast]]]].
  exists final; split; [exact Hrun|].
  exact (Hlast (fun later (H : In later []) => match H with end)).
Defined.

(** C3 at the key [onion] of that file. *)
Lemma C3_witness :
  In (py "onion") (line_keys (U := basic_unicode) onion_line)
  /\ In (py "onion") (line_keys (U := basic_unicode) red_onion_line)
  /\ exists final,
       run (U := basic_unicode) onion_lines = Some final
       /\ dict_get (py "onion") (ingr_dict final) = Some (py "red onion")
       /\ count_occ str_eq_dec (dict_keys (ingr_dict final)) (py "onion")
          = 1%nat.
Proof.
  assert (H1 : In (py "onion") (line_keys (U := basic_unicode) onion_line))
    by (left; reflexivity).
  assert (H2 : In (py "onion")
                  (line_keys (U := basic_unicode) red_onion_line))
    by (right; left; reflexivity).
  split; [exact H1|]; split; [exact H2|].
  exact (C3_last_write_wins (U := basic_unicode)
           [] onion_line [] red_onion_line [] (py "onion") H1 H2
           (fun later (H : In later []) => match H with end)).
Defined.

(** C5, as stated, fails.  The line [a], U+FF0C, [b] holds no comma, and
    NFKC turns the fullwidth comma into one: two tokens. *)
Lemma C5_counterexample :
  ~ In COMMA wide_comma_line
  /\ forall U : Unicode, tokens wide_comma_line = [[97]; [98]].
Proof.
  split.
  - intros [H|[H|[H|[]]]]; discriminate.
  - intros U; unfold tokens; now rewrite nfkc_wide.
Qed.


(** ** The script and its files *)

Section Failures.

Context {U : Unicode}.



End Failures.

(** ** JSON: what is written reads back *)

Module JsonFacts.
Import Json.

Ltac div_lia := zify; Z.to_euclidean_division_equations; lia.

Lemma hex_val_digit d : d < 16 -> hex_val (hex_digit d) = Some d.
Proof.
  intros H; unfold hex_digit, hex_val.
  destruct (N.ltb_spec d 10); case_cmp; try lia; f_equal; lia.
Qed.

Lemma hex4_val_hex4 n a b c d :
  n < 65536 -> hex4 n = [a; b; c; d] -> hex4_val a b c d = Some n.
Proof.
  intros H E; unfold hex4 in E; injection E as <- <- <- <-.
  unfold hex4_val.
  rewrite !hex_val_digit by div_lia.
  f_equal; div_lia.
Qed.

(** [x | y] is [x + y] when [y] fits under the low bits of [x]. *)
Lemma lor_low a b k : b < 2 ^ k -> N.lor (a * 2 ^ k) b = a * 2 ^ k + b.
Proof.
  intros Hb.
  assert (Hl : N.land (a * 2 ^ k) b = 0).
  { apply N.bits_inj_0; intros i; rewrite N.land_spec.
    destruct (N.ltb_spec i k) as [Hi|Hi].
    - now rewrite N.mul_pow2_bits_low.
    - destruct (N.eq_dec b 0) as [->|Hb0];
        [now rewrite N.bits_0, andb_false_r|].
      rewrite (N.bits_above_log2 b i), andb_false_r; [reflexivity|].
      apply N.lt_le_trans with k; [|exact Hi].
      apply N.log2_lt_pow2; [lia|exact Hb]. }
  rewrite N.add_nocarry_lxor by exact Hl.
  symmetry; now apply N.lxor_lor.
Qed.

Lemma add_sub_l a b : a + b - a = b.
Proof. lia. Qed.

(** The two halves of a surrogate pair, as numbers. *)
Lemma high_surrogate n :
  N.lor 0xD800 (N.land (N.shiftr n 10) 0x3FF) = 0xD800 + n / 1024 mod 1024.
Proof.
  change 0x3FF with (N.ones 10).
  rewrite N.land_ones, N.shiftr_div_pow2.
  change 0xD800 with (54 * 2 ^ 10).
  apply lor_low; apply N.mod_lt; discriminate.
Qed.

Lemma low_surrogate n :
  N.lor 0xDC00 (N.land n 0x3FF) = 0xDC00 + n mod 1024.
Proof.
  change 0x3FF with (N.ones 10).
  rewrite N.land_ones.
  change 0xDC00 with (55 * 2 ^ 10).
  apply lor_low; apply N.mod_lt; discriminate.
Qed.

Lemma pair_value hi lo :
  lo < 1024 ->
  N.lor (N.shiftl hi 10) lo = hi * 1024 + lo.
Proof.
  intros H; rewrite N.shiftl_mul_pow2; now apply lor_low.
Qed.

(** One step of [scanstring] on each kind of text the writer produces. *)
Lemma scanstring_plain c tail :
  (c =? QUOTE) = false -> (c =? BACKSLASH) = false -> (c <? 32) = false ->
  scanstring (c :: tail) = push c (scanstring tail).
Proof. intros H1 H2 H3; simpl; now rewrite H1, H2, H3. Qed.

Ltac scan_step :=
  cbn [scanstring N.eqb Pos.eqb BACKSLASH QUOTE andb].

Lemma scanstring_short e x tail :
  (e =? 117) = false -> unescape e = Some x ->
  scanstring (BACKSLASH :: e :: tail) = push x (scanstring tail).
Proof. intros H1 H2; scan_step; now rewrite H1, H2. Qed.

Lemma scanstring_u a b c d r2 uni :
  hex4_val a b c d = Some uni -> is_high uni = false ->
  scanstring (BACKSLASH :: 117 :: a :: b :: c :: d :: r2)
  = push uni (scanstring r2).
Proof. intros H1 H2; scan_step; now rewrite H1, H2. Qed.

Lemma scanstring_pair a b c d a2 b2 c2 d2 r3 uni uni2 :
  hex4_val a b c d = Some uni -> is_high uni = true ->
  hex4_val a2 b2 c2 d2 = Some uni2 -> is_low uni2 = true ->
  scanstring (BACKSLASH :: 117 :: a :: b :: c :: d
              :: BACKSLASH :: 117 :: a2 :: b2 :: c2 :: d2 :: r3)
  = push (0x10000 + N.lor (N.shiftl (uni - 0xD800) 10) (uni2 - 0xDC00))
         (scanstring r3).
Proof. intros H1 H2 H3 H4; scan_step; now rewrite H1, H2, H3, H4. Qed.

(** [scanstring] undoes [escape_char] on every scalar value. *)
Lemma scanstring_escape_char c tail :
  is_scalar c = true ->
  scanstring (escape_char c ++ tail) = push c (scanstring tail).
Proof.
  intros Hc.
  assert (Hs : c < 0x110000 /\ (c < 0xD800 \/ 0xDFFF < c))
    by (unfold is_scalar in Hc; to_prop; lia).
  clear Hc; destruct Hs as [Hmax Hsur].
  unfold escape_char.
  destruct (N.eqb_spec c QUOTE) as [->|H1]; [reflexivity|].
  destruct (N.eqb_spec c BACKSLASH) as [->|H2]; [reflexivity|].
  destruct (N.eqb_spec c 8) as [->|H3]; [reflexivity|].
  destruct (N.eqb_spec c 12) as [->|H4]; [reflexivity|].
  destruct (N.eqb_spec c 10) as [->|H5]; [reflexivity|].
  destruct (N.eqb_spec c 13) as [->|H6]; [reflexivity|].
  destruct (N.eqb_spec c 9) as [->|H7]; [reflexivity|].
  destruct ((32 <=? c) && (c <=? 126)) eqn:Hp.
  - to_prop; apply scanstring_plain.
    + now apply N.eqb_neq.
    + now apply N.eqb_neq.
    + apply N.ltb_ge; lia.
  - destruct (N.ltb_spec c 0x10000) as [Hlow|Hhigh].
    + apply (scanstring_u _ _ _ _ tail c).
      * now apply hex4_val_hex4.
      * unfold is_high; case_cmp; try reflexivity.
        unfold QUOTE, BACKSLASH in *; lia.
    + cbv zeta.
      rewrite high_surrogate, low_surrogate.
      set (n := c - 0x10000).
      assert (Hn : n < 0x100000) by (unfold n; lia).
      unfold u_escape at 1 2; unfold hex4 at 1 2; cbn [app].
      rewrite (scanstring_pair _ _ _ _ _ _ _ _ tail
                 (0xD800 + n / 1024 mod 1024) (0xDC00 + n mod 1024)).
      * f_equal.
        rewrite !add_sub_l.
        rewrite pair_value by (apply N.mod_lt; discriminate).
        unfold n; div_lia.
      * apply hex4_val_hex4; [div_lia|reflexivity].
      * unfold is_high; case_cmp; try reflexivity; div_lia.
      * apply hex4_val_hex4; [div_lia|reflexivity].
      * unfold is_low; case_cmp; try reflexivity; div_lia.
Qed.

Lemma scanstring_dumps s rest :
  forallb is_scalar s = true ->
  scanstring (flat_map escape_char s ++ QUOTE :: rest) = Some (s, rest).
Proof.
  induction s as [|c r IH]; intros H; [reflexivity|].
  simpl in H; apply andb_true_iff in H; destruct H as [Hc Hr].
  cbn [flat_map]; rewrite <- app_assoc.
  rewrite scanstring_escape_char by exact Hc.
  now rewrite IH.
Qed.

Lemma quoted_dumps s rest :
  forallb is_scalar s = true ->
  quoted (dumps_str s ++ rest) = Some (s, rest).
Proof.
  intros H; unfold dumps_str, quoted.
  cbn [app]; rewrite N.eqb_refl, <- app_assoc.
  now apply scanstring_dumps.
Qed.

Lemma skip_ws_dumps_str s rest :
  skip_ws (dumps_str s ++ rest) = dumps_str s ++ rest.
Proof. reflexivity. Qed.

(** One member, then what follows it. *)
Lemma members_item fuel k v s3 :
  forallb is_scalar k = true -> forallb is_scalar v = true ->
  members (S fuel) (dumps_item (k, v) ++ s3)
  = match skip_ws s3 with
    | c' :: s4 =>
        if c' =? 125 then Some ([(k, v)], s4)
        else if c' =? COMMA then
          match members fuel (skip_ws s4) with
          | Some (pairs, rest) => Some ((k, v) :: pairs, rest)
          | None => None
          end
        else None
    | [] => None
    end.
Proof.
  intros Hk Hv; unfold dumps_item; cbn [fst snd members].
  rewrite <- !app_assoc, (quoted_dumps k _ Hk).
  cbn [app skip_ws is_json_ws N.eqb Pos.eqb orb SPACE].
  rewrite skip_ws_dumps_str, (quoted_dumps v _ Hv).
  reflexivity.
Qed.

Lemma members_dumps fuel kv d rest :
  dict_scalar (kv :: d) ->
  (length (kv :: d) <= fuel)%nat ->
  members fuel (join [COMMA; SPACE] (map dumps_item (kv :: d)) ++ 125 :: rest)
  = Some (kv :: d, rest).
Proof.
  revert fuel kv; induction d as [|kv' d IH]; intros fuel [k v] Hs Hfuel;
    (destruct fuel as [|fuel]; [simpl in Hfuel; lia|]);
    inversion Hs as [|x l [Hk Hv] Hs']; subst; cbn [fst snd] in *.
  - cbn [map join]; now rewrite members_item.
  - change (join [COMMA; SPACE] (map dumps_item ((k, v) :: kv' :: d)))
      with (dumps_item (k, v)
            ++ [COMMA; SPACE]
            ++ join [COMMA; SPACE] (map dumps_item (kv' :: d))).
    rewrite <- !app_assoc, members_item by assumption.
    cbn [app skip_ws is_json_ws N.eqb Pos.eqb orb SPACE COMMA].
    assert (Hskip : forall x,
      skip_ws (join [COMMA; SPACE] (map dumps_item (kv' :: d)) ++ x)
      = join [COMMA; SPACE] (map dumps_item (kv' :: d)) ++ x).
    { intros x; destruct d; reflexivity. }
    rewrite Hskip, IH; [reflexivity|exact Hs'|simpl in *; lia].
Qed.

Lemma join_items_length d :
  (length d <= length (join [COMMA; SPACE] (map dumps_item d)))%nat.
Proof.
  induction d as [|kv d IH]; [apply Nat.le_0_l|].
  destruct d as [|kv' d].
  - simpl; unfold dumps_item, dumps_str; simpl; lia.
  - change (join [COMMA; SPACE] (map dumps_item (kv :: kv' :: d)))
      with (dumps_item kv
            ++ [COMMA; SPACE]
            ++ join [COMMA; SPACE] (map dumps_item (kv' :: d))).
    rewrite !length_app; simpl in *; lia.
Qed.

(** [dict(pairs)] of the items of a dictionary is that dictionary. *)
Lemma dict_set_fresh k v d :
  ~ In k (dict_keys d) -> dict_set k v d = d ++ [(k, v)].
Proof.
  induction d as [|[k' v'] r IH]; simpl; [reflexivity|].
  intros H; destruct (str_eq_dec k k') as [->|_]; [elim H; now left|].
  rewrite IH; [reflexivity|]; intros Hin; apply H; now right.
Qed.

Lemma dict_of_pairs_from acc d :
  NoDup (dict_keys (acc ++ d)) ->
  fold_left (fun d kv => dict_set (fst kv) (snd kv) d) d acc = acc ++ d.
Proof.
  revert acc; induction d as [|[k v] r IH]; intros acc H; simpl;
    [now rewrite app_nil_r|].
  assert (Hfresh : ~ In k (dict_keys acc)).
  { unfold dict_keys in *; rewrite map_app in H; simpl in H.
    apply NoDup_remove_2 in H; intros Hin; apply H, in_or_app; now left. }
  rewrite (dict_set_fresh k v acc Hfresh), IH.
  - now rewrite <- app_assoc.
  - now rewrite <- app_assoc.
Qed.

Lemma dict_of_pairs_id d :
  NoDup (dict_keys d) -> dict_of_pairs d = d.
Proof. intros H; apply (dict_of_pairs_from [] d H). Qed.

(** Reading back what [json.dump] wrote gives the dictionary back. *)
Lemma loads_dumps d :
  dict_scalar d -> NoDup (dict_keys d) ->
  loads_dict (dumps_dict d) = Some d.
Proof.
  intros Hs Hnd; unfold dumps_dict, loads_dict.
  cbn [skip_ws is_json_ws N.eqb Pos.eqb orb].
  destruct d as [|kv d]; [reflexivity|].
  assert (Hskip : forall x,
    skip_ws (join [COMMA; SPACE] (map dumps_item (kv :: d)) ++ x)
    = join [COMMA; SPACE] (map dumps_item (kv :: d)) ++ x).
  { intros x; destruct d; reflexivity. }
  rewrite Hskip.
  assert (Hhead : exists tl,
    join [COMMA; SPACE] (map dumps_item (kv :: d)) ++ [125] = QUOTE :: tl).
  { destruct d; eexists; reflexivity. }
  destruct Hhead as [tl Htl].
  rewrite Htl; cbn [N.eqb Pos.eqb QUOTE]; rewrite <- Htl.
  rewrite members_dumps.
  - cbn [skip_ws]; now rewrite dict_of_pairs_id.
  - exact Hs.
  - rewrite length_app.
    pose proof (join_items_length (kv :: d)); simpl in *; lia.
Qed.
End JsonFacts.

(** ** Scalar values are kept by the pipeline *)

Lemma dict_set_scalar k v d :
  forallb is_scalar k = true -> forallb is_scalar v = true ->
  dict_scalar d -> dict_scalar (dict_set k v d).
Proof.
  intros Hk Hv; unfold dict_scalar.
  induction d as [|[k' v'] r IH]; intros H; simpl.
  - now repeat constructor.
  - inversion H; subst.
    destruct (str_eq_dec k k'); constructor; auto.
Qed.

Lemma assign_all_scalar v keys d :
  forallb is_scalar v = true ->
  Forall (fun k => forallb is_scalar k = true) keys ->
  dict_scalar d -> dict_scalar (assign_all v keys d).
Proof.
  intros Hv Hkeys; unfold assign_all; revert d.
  induction Hkeys as [|k r Hk _ IH]; intros d Hd; simpl; [exact Hd|].
  now apply IH, dict_set_scalar.
Qed.

Lemma readlines_from_scalar_le n cur s :
  (length s <= n)%nat ->
  forallb is_scalar cur = true -> forallb is_scalar s = true ->
  Forall (fun line => forallb is_scalar line = true) (readlines_from cur s).
Proof.
  assert (Hend : forall cur',
    forallb is_scalar cur' = true ->
    forallb is_scalar (rev (LF :: cur')) = true).
  { intros cur' H; rewrite forallb_rev; simpl; exact H. }
  revert cur s; induction n as [|n IH]; intros cur s Hn Hcur Hs.
  - destruct s; [|simpl in Hn; lia].
    simpl; destruct cur; constructor; [now rewrite forallb_rev|constructor].
  - destruct s as [|c r].
    { simpl; destruct cur; constructor;
        [now rewrite forallb_rev|constructor]. }
    simpl in Hn, Hs; apply andb_true_iff in Hs; destruct Hs as [Hc Hr].
    cbn [readlines_from].
    destruct (c =? LF);
      [constructor; [now apply Hend|apply IH; [lia|reflexivity|exact Hr]]|].
    destruct (c =? CR).
    + destruct r as [|c2 r2]; [constructor; [now apply Hend|constructor]|].
      simpl in Hn.
      destruct (c2 =? LF); (constructor; [now apply Hend|]).
      * simpl in Hr; apply andb_true_iff in Hr; destruct Hr as [_ Hr2].
        apply IH; [lia|reflexivity|exact Hr2].
      * apply IH; [simpl; lia|reflexivity|exact Hr].
    + apply IH; [lia|simpl; now rewrite Hc|exact Hr].
Qed.

Lemma readlines_scalar s :
  forallb is_scalar s = true ->
  Forall (fun line => forallb is_scalar line = true) (readlines s).
Proof. now apply (readlines_from_scalar_le (length s)). Qed.

Section Scalar.

Context {U : Unicode}.

Lemma tokens_scalar line :
  forallb is_scalar line = true ->
  Forall (fun t => forallb is_scalar t = true) (tokens line).
Proof.
  intros H; unfold tokens.
  now apply split_sep_forallb, strip_forallb, nfkc_scalar.
Qed.

Lemma clean_scalar t :
  forallb is_scalar t = true -> forallb is_scalar (clean t) = true.
Proof.
  intros H; unfold clean.
  now apply lower_scalar, lower_scalar, strip_forallb.
Qed.

Lemma line_keys_scalar line :
  forallb is_scalar line = true ->
  Forall (fun k => forallb is_scalar k = true) (line_keys line).
Proof.
  intros H; unfold line_keys; apply Forall_map.
  eapply Forall_impl; [|exact (tokens_scalar line H)].
  intros t Ht; unfold alias_key.
  now apply re_sub_space_forallb, clean_scalar.
Qed.

Lemma line_canonical_scalar line :
  forallb is_scalar line = true ->
  forallb is_scalar (line_canonical line) = true.
Proof.
  intros H; unfold line_canonical, canonical_form, re_sub_spaces.
  apply re_sub_spaces_forallb; [reflexivity|].
  apply lower_scalar, lower_scalar.
  destruct (tokens_scalar line H); [reflexivity|assumption].
Qed.

Lemma steps_scalar lines st :
  Forall (fun line => forallb is_scalar line = true) lines ->
  dict_scalar (ingr_dict st) ->
  dict_scalar (ingr_dict (fold_left step lines st)).
Proof.
  intros H; revert st; induction H as [|line rest Hl _ IH]; intros st Hst;
    simpl; [exact Hst|].
  apply IH; rewrite step_dict.
  apply assign_all_scalar;
    [now apply line_canonical_scalar|now apply line_keys_scalar|exact Hst].
Qed.

(** The alias map the loop builds from lines of scalar values reads back
    from its JSON text. *)
Lemma run_loads lines :
  Forall (fun line => forallb is_scalar line = true) lines ->
  exists final,
    run lines = Some final
    /\ Json.loads_dict (Json.dumps_dict (ingr_dict final))
       = Some (ingr_dict final).
Proof.
  intros H; exists (fold_left step lines initial).
  split; [apply run_from_steps|].
  apply JsonFacts.loads_dumps.
  - apply steps_scalar; [exact H|constructor].
  - apply steps_NoDup; constructor.
Qed.

(** C7.  When the script finishes on a text of Unicode scalar values,
    which is what decoding a file gives, the alias-map artifact it wrote
    reads back as the alias map the loop built; so looking up in it the
    key of any token of any line gives the canonical form the pipeline
    bound to that key. *)
Theorem C7_round_trip w text :
  ingredients_txt w = Text text ->
  forallb is_scalar text = true ->
  fst (main w) = Finished ->
  exists final artifact,
    run (readlines text) = Some final
    /\ content (ingredients_json (snd (main w))) = Some artifact
    /\ artifact = Json.dumps_dict (ingr_dict final)
    /\ Json.loads_dict artifact = Some (ingr_dict final)
    /\ forall line tok,
         In line (readlines text) -> In tok (tokens line) ->
         exists loaded v,
           Json.loads_dict artifact = Some loaded
           /\ dict_get (alias_key tok) loaded = Some v
           /\ dict_get (alias_key tok) (ingr_dict final) = Some v.
Proof.
  intros Hin Htext Hfin.
  destruct (run_loads (readlines text) (readlines_scalar text Htext))
    as [final [Hrun Hload]].
  exists final, (Json.dumps_dict (ingr_dict final)).
  split; [exact Hrun|].
  split.
  { revert Hfin; unfold main; rewrite Hin, Hrun.
    destruct (writable (words_json w));
      destruct (writable (ingredients_json w));
      simpl; intros; try discriminate; reflexivity. }
  split; [reflexivity|].
  split; [exact Hload|].
  intros line tok Hline Htok.
  assert (Hkey : In (alias_key tok) (line_keys line))
    by (unfold line_keys; now apply in_map).
  destruct (last_producer (readlines text) (alias_key tok))
    as [before [last [after [E [Hlast Hafter]]]]].
  { now exists line. }
  exists (ingr_dict final), (line_canonical last).
  assert (Hget : dict_get (alias_key tok) (ingr_dict final)
                 = Some (line_canonical last)).
  { unfold run in Hrun; rewrite run_from_steps in Hrun.
    injection Hrun as <-; rewrite E; now apply steps_last. }
  now repeat split.
Qed.

End Scalar.

(** C7 at the file [Onion,onion], [Red Onion,onion]. *)
Lemma C7_witness :
  ingredients_txt onion_world = Text (onion_line ++ red_onion_line)
  /\ forallb is_scalar (onion_line ++ red_onion_line) = true
  /\ fst (main (U := basic_unicode) onion_world) = Finished
  /\ exists final artifact,
       content (ingredients_json (snd (main (U := basic_unicode) onion_world)))
       = Some artifact
       /\ Json.loads_dict artifact = Some (ingr_dict final)
       /\ dict_get (py "onion") (ingr_dict final) = Some (py "red onion").
Proof.
  split; [reflexivity|]; split; [reflexivity|]; split; [reflexivity|].
  destruct (C7_round_trip (U := basic_unicode) onion_world
              (onion_line ++ red_onion_line) eq_refl eq_refl eq_refl)
    as [final [artifact [Hrun [Hc [_ [Hl _]]]]]].
  exists final, artifact.
  split; [exact Hc|]; split; [exact Hl|].
  cbv in Hrun; injection Hrun as <-; reflexivity.
Defined.

(** * Further properties *)

Section Output.

Context {U : Unicode}.

Lemma producer_dec lines k :
  {exists line, In line lines /\ In k (line_keys line)}
  + {forall line, In line lines -> ~ In k (line_keys line)}.
Proof.
  destruct (Exists_dec (fun x => In k (line_keys x)) lines) as [Hex|Hno].
  - intros x; apply in_dec, str_eq_dec.
  - left; now apply Exists_exists.
  - right; intros line Hl Hk; apply Hno, Exists_exists; now exists line.
Qed.

(** X1.  A lookup in the final alias map is decided by the lines: a key
    no token produces is absent, and a key some token produces is bound
    to the canonical form of the last line that produces it and to
    nothing else. *)
Theorem X1_lookup_decided lines k :
  exists final,
    run lines = Some final
    /\ (dict_get k (ingr_dict final) = None <->
        forall line, In line lines -> ~ In k (line_keys line))
    /\ forall v,
         dict_get k (ingr_dict final) = Some v <->
         exists before last after,
           lines = before ++ last :: after
           /\ In k (line_keys last)
           /\ (forall later, In later after -> ~ In k (line_keys later))
           /\ v = line_canonical last.
Proof.
  exists (fold_left step lines initial).
  split; [apply run_from_steps|].
  destruct (producer_dec lines k) as [Hex|Hno].
  - destruct (last_producer lines k Hex)
      as [before [last [after [E [Hin Hafter]]]]].
    assert (Hget : dict_get k (ingr_dict (fold_left step lines initial))
                   = Some (line_canonical last))
      by (rewrite E; now apply steps_last).
    split.
    + rewrite Hget; split; [discriminate|].
      intros Hnone; exfalso; apply (Hnone last); [|exact Hin].
      rewrite E; apply in_or_app; right; now left.
    + intros v; split.
      * intros Hv; rewrite Hget in Hv; injection Hv as <-.
        now exists before, last, after.
      * intros [b [l [a [E' [Hl [Ha ->]]]]]].
        rewrite E'; now apply steps_last.
  - assert (Hget : dict_get k (ingr_dict (fold_left step lines initial))
                   = None) by now rewrite steps_other.
    split; [now rewrite Hget|].
    intros v; rewrite Hget; split; [discriminate|].
    intros [b [l [a [E [Hl _]]]]]; exfalso; apply (Hno l); [|exact Hl].
    rewrite E; apply in_or_app; right; now left.
Qed.

(** X2.  Every key of the final alias map is the key of a token of some
    line, and holds no whitespace character. *)
Theorem X2_keys_from_tokens lines :
  exists final,
    run lines = Some final
    /\ forall k,
         In k (dict_keys (ingr_dict final)) ->
         (exists line tok,
            In line lines /\ In tok (tokens line) /\ k = alias_key tok)
         /\ forallb (fun c => negb (isspace c)) k = true.
Proof.
  exists (fold_left step lines initial).
  split; [apply run_from_steps|].
  intros k Hk.
  assert (Horigin : exists line tok,
            In line lines /\ In tok (tokens line) /\ k = alias_key tok).
  { destruct (producer_dec lines k) as [[line [Hl Hin]]|Hno].
    - unfold line_keys in Hin; apply in_map_iff in Hin.
      destruct Hin as [tok [E Htok]]; now exists line, tok.
    - apply dict_get_In in Hk; destruct Hk as [v Hv].
      rewrite steps_other in Hv by exact Hno; discriminate. }
  split; [exact Horigin|].
  destruct Horigin as [line [tok [_ [_ ->]]]].
  apply re_sub_space_no_space.
Qed.

(** X3.  Every word of the final word list is non-empty and holds no
    whitespace character. *)
Theorem X3_words_clean lines :
  exists final,
    run lines = Some final
    /\ Forall (fun w => w <> []
                        /\ forallb (fun c => negb (isspace c)) w = true)
              (words final).
Proof.
  exists (fold_left step lines initial).
  split; [apply run_from_steps|].
  rewrite steps_words; simpl.
  apply Forall_flat_map, Forall_forall; intros line _.
  unfold line_words.
  apply Forall_flat_map, Forall_forall; intros tok _.
  apply split_ws_words.
Qed.

(** What [re.sub(r"\s+", " ", _)] gives never starts with whitespace
    when the scan is inside a match. *)
Lemma re_sub_spaces_true_head s c r :
  re_sub_spaces_from [SPACE] true s = c :: r -> isspace c = false.
Proof.
  induction s as [|c0 r0 IH]; simpl; [discriminate|].
  destruct (isspace c0) eqn:H0; [exact IH|].
  intros E; injection E as <- _; exact H0.
Qed.

Lemma re_sub_spaces_only_space b s c :
  In c (re_sub_spaces_from [SPACE] b s) -> isspace c = true -> c = SPACE.
Proof.
  revert b; induction s as [|c0 r0 IH]; intros b; simpl; [contradiction|].
  destruct (isspace c0) eqn:H0.
  - destruct b; [apply IH|].
    intros [<-|Hin] Hc; [reflexivity|now apply (IH true)].
  - intros [<-|Hin] Hc; [congruence|now apply (IH false)].
Qed.

Lemma re_sub_spaces_no_double b s a x :
  re_sub_spaces_from [SPACE] b s <> a ++ SPACE :: SPACE :: x.
Proof.
  revert b a; induction s as [|c0 r0 IH]; intros b a; simpl.
  - destruct a; discriminate.
  - destruct (isspace c0) eqn:H0.
    + destruct b; [apply IH|].
      destruct a as [|a0 a']; simpl; intros E.
      * injection E as E2.
        apply re_sub_spaces_true_head in E2; discriminate.
      * injection E as E1 E2; now apply IH in E2.
    + destruct a as [|a0 a']; simpl; intros E; injection E as E1 E2.
      * subst c0; discriminate.
      * now apply IH in E2.
Qed.

(** X4.  Every value of the final alias map is single-spaced: the only
    whitespace character in it is the space, and no two spaces are
    adjacent. *)
Theorem X4_values_single_spaced lines :
  exists final,
    run lines = Some final
    /\ forall k v,
         dict_get k (ingr_dict final) = Some v ->
         (forall c, In c v -> isspace c = true -> c = SPACE)
         /\ (forall a x, v <> a ++ SPACE :: SPACE :: x).
Proof.
  exists (fold_left step lines initial).
  split; [apply run_from_steps|].
  intros k v Hv.
  assert (Hcan : exists s, v = re_sub_spaces [SPACE] s).
  { destruct (producer_dec lines k) as [Hex|Hno].
    - destruct (last_producer lines k Hex)
        as [before [last [after [E [Hin Hafter]]]]].
      rewrite E, (steps_last before last after initial k Hin Hafter) in Hv.
      injection Hv as <-; eexists; reflexivity.
    - rewrite steps_other in Hv by exact Hno; discriminate. }
  destruct Hcan as [s ->]; split.
  - apply re_sub_spaces_only_space.
  - apply re_sub_spaces_no_double.
Qed.

Lemma line_words_keys line :
  concat (line_words line) = concat (line_keys line).
Proof.
  unfold line_words, line_keys.
  induction (tokens line) as [|tok toks IH]; simpl; [reflexivity|].
  rewrite concat_app, IH; f_equal; apply split_ws_concat.
Qed.

(** X5.  The key of a token is its words put together, so the words of
    the final word list, concatenated, are the keys assigned over the
    run, concatenated in the order of assignment. *)
Theorem X5_keys_are_words_joined lines :
  (forall tok, alias_key tok = concat (split_ws (clean tok)))
  /\ exists final,
       run lines = Some final
       /\ concat (words final) = concat (flat_map line_keys lines).
Proof.
  split; [intros tok; symmetry; apply split_ws_concat|].
  exists (fold_left step lines initial).
  split; [apply run_from_steps|].
  rewrite steps_words; simpl.
  induction lines as [|line rest IH]; simpl; [reflexivity|].
  now rewrite !concat_app, IH, line_words_keys.
Qed.

End Output.



Lemma assign_all_keys_grow v keys d :
  exists new_keys,
    dict_keys (assign_all v keys d) = dict_keys d ++ new_keys.
Proof.
  unfold assign_all; revert d; induction keys as [|k r IH]; intros d; simpl.
  - exists []; now rewrite app_nil_r.
  - destruct (IH (dict_set k v d)) as [ks ->]; rewrite dict_keys_set.
    destruct (in_dec str_eq_dec k (dict_keys d)); [now exists ks|].
    exists (k :: ks); now rewrite <- app_assoc.
Qed.

Section Order.

Context {U : Unicode}.



Lemma steps_keys_grow more st :
  exists new_keys,
    dict_keys (ingr_dict (fold_left step more st))
    = dict_keys (ingr_dict st) ++ new_keys.
Proof.
  revert st; induction more as [|line rest IH]; intros st; simpl.
  - exists []; now rewrite app_nil_r.
  - destruct (IH (step st line)) as [ks Hks]; rewrite Hks, step_dict.
    destruct (assign_all_keys_grow (line_canonical line) (line_keys line)
                (ingr_dict st)) as [ks' ->].
    exists (ks' ++ ks); now rewrite app_assoc.
Qed.

(** X7.  Lines read later never remove or move what earlier lines
    produced: the keys after [lines ++ more] are the keys after [lines]
    followed by new ones, and likewise the words. *)
Theorem X7_growth lines more :
  exists final final' new_keys,
    run lines = Some final
    /\ run (lines ++ more) = Some final'
    /\ dict_keys (ingr_dict final')
       = dict_keys (ingr_dict final) ++ new_keys
    /\ (forall k, In k new_keys -> ~ In k (dict_keys (ingr_dict final)))
    /\ words final' = words final ++ flat_map line_words more.
Proof.
  set (final := fold_left step lines initial).
  set (final' := fold_left step (lines ++ more) initial).
  assert (Hnd : NoDup (dict_keys (ingr_dict final')))
    by (apply steps_NoDup; constructor).
  assert (Hk : exists new_keys,
            dict_keys (ingr_dict final')
            = dict_keys (ingr_dict final) ++ new_keys)
    by (unfold final', final; rewrite fold_left_app; apply steps_keys_grow).
  destruct Hk as [new_keys Hk].
  exists final, final', new_keys.
  split; [apply run_from_steps|].
  split; [apply run_from_steps|].
  split; [exact Hk|].
  split.
  - rewrite Hk in Hnd; intros k Hnew Hold.
    revert Hnd Hnew Hold; generalize (dict_keys (ingr_dict final)).
    intros l Hnd Hnew Hold.
    apply in_split in Hold; destruct Hold as [l1 [l2 ->]].
    rewrite <- app_assoc in Hnd; simpl in Hnd.
    apply NoDup_remove_2 in Hnd; apply Hnd.
    apply in_or_app; right; apply in_or_app; now right.
  - unfold final', final; rewrite fold_left_app.
    now rewrite steps_words.
Qed.

End Order.

(** ** The artifacts *)

Module ArtifactFacts.
Import Json JsonFacts JsonArray.

Lemma hex_digit_printable d : d < 16 -> is_printable (hex_digit d) = true.
Proof.
  intros H; unfold hex_digit, is_printable.
  destruct (N.ltb_spec d 10); case_cmp; try reflexivity; lia.
Qed.

Lemma u_escape_printable n : forallb is_printable (u_escape n) = true.
Proof.
  unfold u_escape, hex4; cbn [forallb].
  rewrite !hex_digit_printable by (apply N.mod_lt; discriminate).
  reflexivity.
Qed.

Lemma escape_char_printable c : forallb is_printable (escape_char c) = true.
Proof.
  unfold escape_char.
  repeat match goal with
  | |- context [if ?a =? ?b then _ else _] =>
      destruct (a =? b); [reflexivity|]
  end.
  destruct ((32 <=? c) && (c <=? 126)) eqn:Hp.
  - cbn [forallb]; unfold is_printable; now rewrite Hp.
  - destruct (c <? 0x10000); [apply u_escape_printable|].
    cbv zeta; rewrite forallb_app, !u_escape_printable; reflexivity.
Qed.

Lemma dumps_str_printable s : forallb is_printable (dumps_str s) = true.
Proof.
  unfold dumps_str; cbn [forallb]; rewrite forallb_app.
  replace (forallb is_printable (flat_map escape_char s)) with true;
    [reflexivity|].
  symmetry; induction s as [|c r IH]; [reflexivity|].
  cbn [flat_map]; now rewrite forallb_app, escape_char_printable, IH.
Qed.

Lemma join_printable sep items :
  forallb is_printable sep = true ->
  Forall (fun x => forallb is_printable x = true) items ->
  forallb is_printable (join sep items) = true.
Proof.
  intros Hsep H; induction H as [|x r Hx Hr IH]; [reflexivity|].
  destruct r as [|y r]; [exact Hx|].
  change (join sep (x :: y :: r)) with (x ++ sep ++ join sep (y :: r)).
  now rewrite !forallb_app, Hx, Hsep, IH.
Qed.

Lemma elements_item fuel v s3 :
  forallb is_scalar v = true ->
  elements (S fuel) (dumps_str v ++ s3)
  = match skip_ws s3 with
    | c :: s4 =>
        if c =? 93 then Some ([v], s4)
        else if c =? COMMA then
          match elements fuel (skip_ws s4) with
          | Some (values, rest) => Some (v :: values, rest)
          | None => None
          end
        else None
    | [] => None
    end.
Proof. intros Hv; cbn [elements]; now rewrite (quoted_dumps v _ Hv). Qed.

Lemma elements_dumps fuel v l rest :
  Forall (fun x => forallb is_scalar x = true) (v :: l) ->
  (length (v :: l) <= fuel)%nat ->
  elements fuel (join [COMMA; SPACE] (map dumps_str (v :: l)) ++ 93 :: rest)
  = Some (v :: l, rest).
Proof.
  revert fuel v; induction l as [|v' l IH]; intros fuel v Hs Hfuel;
    (destruct fuel as [|fuel]; [simpl in Hfuel; lia|]);
    inversion Hs as [|x y Hv Hs']; subst.
  - cbn [map join]; now rewrite elements_item.
  - change (join [COMMA; SPACE] (map dumps_str (v :: v' :: l)))
      with (dumps_str v
            ++ [COMMA; SPACE]
            ++ join [COMMA; SPACE] (map dumps_str (v' :: l))).
    rewrite <- !app_assoc, elements_item by assumption.
    cbn [app skip_ws is_json_ws N.eqb Pos.eqb orb SPACE COMMA].
    assert (Hskip : forall x,
      skip_ws (join [COMMA; SPACE] (map dumps_str (v' :: l)) ++ x)
      = join [COMMA; SPACE] (map dumps_str (v' :: l)) ++ x).
    { intros x; destruct l; reflexivity. }
    rewrite Hskip, IH; [reflexivity|exact Hs'|simpl in *; lia].
Qed.

Lemma join_strs_length l :
  (length l <= length (join [COMMA; SPACE] (map dumps_str l)))%nat.
Proof.
  induction l as [|v l IH]; [apply Nat.le_0_l|].
  destruct l as [|v' l].
  - simpl; lia.
  - change (join [COMMA; SPACE] (map dumps_str (v :: v' :: l)))
      with (dumps_str v
            ++ [COMMA; SPACE]
            ++ join [COMMA; SPACE] (map dumps_str (v' :: l))).
    rewrite !length_app; simpl in *; lia.
Qed.

Lemma loads_dumps_list l :
  Forall (fun x => forallb is_scalar x = true) l ->
  loads_list (dumps_list l) = Some l.
Proof.
  intros Hs; unfold dumps_list, loads_list.
  cbn [skip_ws is_json_ws N.eqb Pos.eqb orb].
  destruct l as [|v l]; [reflexivity|].
  assert (Hskip : forall x,
    skip_ws (join [COMMA; SPACE] (map dumps_str (v :: l)) ++ x)
    = join [COMMA; SPACE] (map dumps_str (v :: l)) ++ x).
  { intros x; destruct l; reflexivity. }
  rewrite Hskip.
  assert (Hhead : exists tl,
    join [COMMA; SPACE] (map dumps_str (v :: l)) ++ [93] = QUOTE :: tl).
  { destruct l; eexists; reflexivity. }
  destruct Hhead as [tl Htl].
  rewrite Htl; cbn [N.eqb Pos.eqb QUOTE]; rewrite <- Htl.
  rewrite elements_dumps.
  - reflexivity.
  - exact Hs.
  - pose proof (join_strs_length (v :: l)) as Hlen.
    rewrite length_app; cbn [length] in *.
    eapply Nat.le_trans; [exact Hlen|apply Nat.le_add_r].
Qed.

End ArtifactFacts.

(** X8.  Both artifacts are written in printable ASCII, whatever the
    words and the alias map hold. *)
Theorem X8_artifacts_ascii :
  (forall l, forallb is_printable (Json.dumps_list l) = true)
  /\ (forall d, forallb is_printable (Json.dumps_dict d) = true).
Proof.
  split.
  - intros l; unfold Json.dumps_list; cbn [forallb]; rewrite forallb_app.
    rewrite ArtifactFacts.join_printable; [reflexivity|reflexivity|].
    apply Forall_map, Forall_forall; intros x _; apply ArtifactFacts.dumps_str_printable.
  - intros d; unfold Json.dumps_dict; cbn [forallb]; rewrite forallb_app.
    rewrite ArtifactFacts.join_printable; [reflexivity|reflexivity|].
    apply Forall_map, Forall_forall; intros [k v] _.
    unfold Json.dumps_item; cbn [fst snd].
    now rewrite !forallb_app, !ArtifactFacts.dumps_str_printable.
Qed.


Section Artifacts.

Context {U : Unicode}.

Lemma steps_words_scalar lines :
  Forall (fun line => forallb is_scalar line = true) lines ->
  Forall (fun w => forallb is_scalar w = true)
         (words (fold_left step lines initial)).
Proof.
  intros H; rewrite steps_words; simpl.
  apply Forall_flat_map; eapply Forall_impl; [|exact H].
  intros line Hline; unfold line_words.
  apply Forall_flat_map.
  eapply Forall_impl; [|exact (tokens_scalar line Hline)].
  intros tok Htok.
  apply split_ws_from_forallb; [reflexivity|now apply clean_scalar].
Qed.

(** X9.  On lines of Unicode scalar values, the word-list artifact
    reads back as the word list the loop built: same words, same
    order, duplicates included. *)
Theorem X9_words_round_trip lines :
  Forall (fun line => forallb is_scalar line = true) lines ->
  exists final,
    run lines = Some final
    /\ JsonArray.loads_list (Json.dumps_list (words final))
       = Some (words final).
Proof.
  intros H; exists (fold_left step lines initial).
  split; [apply run_from_steps|].
  now apply ArtifactFacts.loads_dumps_list, steps_words_scalar.
Qed.


End Artifacts.

(** ** The lines of the file *)




(** ** ASCII tokens and lines *)

Lemma re_sub_space_app a b :
  re_sub_space [] (a ++ b) = re_sub_space [] a ++ re_sub_space [] b.
Proof.
  induction a as [|c r IH]; simpl; [reflexivity|].
  destruct (isspace c); simpl; now rewrite IH.
Qed.

Lemma re_sub_space_all_space s :
  forallb isspace s = true -> re_sub_space [] s = [].
Proof.
  induction s as [|c r IH]; simpl; [reflexivity|].
  intros H; apply andb_true_iff in H; destruct H as [Hc Hr].
  now rewrite Hc, IH.
Qed.

(** Stripping before removing all whitespace changes nothing. *)
Lemma re_sub_space_strip s : re_sub_space [] (strip s) = re_sub_space [] s.
Proof.
  destruct (strip_spec s) as [pre [post [E [Hpre [Hpost _]]]]].
  rewrite E at 2.
  rewrite !re_sub_space_app, (re_sub_space_all_space pre Hpre),
    (re_sub_space_all_space post Hpost).
  now rewrite app_nil_r.
Qed.

Lemma re_sub_space_lower s :
  re_sub_space [] (map ascii_lower s) = map ascii_lower (re_sub_space [] s).
Proof.
  induction s as [|c r IH]; simpl; [reflexivity|].
  rewrite ascii_lower_isspace; destruct (isspace c); simpl; now rewrite IH.
Qed.

Lemma re_sub_space_idem s :
  re_sub_space [] (re_sub_space [] s) = re_sub_space [] s.
Proof.
  induction s as [|c r IH]; simpl; [reflexivity|].
  destruct (isspace c) eqn:Hc; simpl; [exact IH|now rewrite Hc, IH].
Qed.

(** Removing all whitespace after collapsing it is removing it. *)
Lemma re_sub_space_collapsed b s :
  re_sub_space [] (re_sub_spaces_from [SPACE] b s) = re_sub_space [] s.
Proof.
  revert b; induction s as [|c r IH]; intros b; simpl; [reflexivity|].
  destruct (isspace c) eqn:Hc.
  - destruct b; [apply IH|]; simpl; apply IH.
  - simpl; now rewrite Hc, IH.
Qed.

Lemma lstrip_fixed_head s c r :
  lstrip s = s -> s = c :: r -> isspace c = false.
Proof.
  intros H ->; simpl in H.
  destruct (isspace c); [|reflexivity]; exfalso.
  destruct (lstrip_split r) as [run [E _]].
  rewrite H in E; apply (f_equal (@length N)) in E.
  rewrite length_app in E; simpl in E; lia.
Qed.

(** The first piece of a split is a prefix of the string. *)
Lemma split_sep_first sep s first rest :
  split_sep sep s = first :: rest -> exists tail, s = first ++ tail.
Proof.
  intros E; pose proof (split_sep_join sep s) as J; rewrite E in J.
  destruct rest as [|t ts].
  - exists []; simpl in J; now rewrite app_nil_r.
  - exists ([sep] ++ join [sep] (t :: ts)); now rewrite <- J.
Qed.

Section AsciiKeys.

Context {U : Unicode}.

Lemma alias_key_ascii tok :
  forallb is_ascii tok = true ->
  alias_key tok = map ascii_lower (re_sub_space [] tok).
Proof.
  intros H; unfold alias_key, clean.
  rewrite lower_lower_ascii by now apply strip_forallb.
  now rewrite re_sub_space_lower, re_sub_space_strip.
Qed.

(** X12.  The key of an ASCII token is the token without its whitespace,
    in lower case.  So tokens that differ only in case and in whitespace
    share their key, and the key of a key is the key itself. *)
Theorem X12_ascii_key tok :
  forallb is_ascii tok = true ->
  alias_key tok
  = map ascii_lower (filter (fun c => negb (isspace c)) tok)
  /\ alias_key (alias_key tok) = alias_key tok
  /\ forall tok',
       forallb is_ascii tok' = true ->
       map ascii_lower (filter (fun c => negb (isspace c)) tok')
       = map ascii_lower (filter (fun c => negb (isspace c)) tok) ->
       alias_key tok' = alias_key tok.
Proof.
  intros H.
  assert (E : alias_key tok
              = map ascii_lower (filter (fun c => negb (isspace c)) tok))
    by (rewrite alias_key_ascii by exact H; now rewrite re_sub_space_filter).
  split; [exact E|]; split.
  - assert (Hk : forallb is_ascii (alias_key tok) = true).
    { rewrite alias_key_ascii by exact H.
      apply (forallb_map_imp is_ascii); [apply ascii_lower_ascii|].
      now apply re_sub_space_forallb. }
    rewrite (alias_key_ascii _ Hk), (alias_key_ascii tok H).
    rewrite <- re_sub_space_lower, map_map.
    rewrite (map_ext _ _ ascii_lower_idem).
    now rewrite re_sub_space_lower, re_sub_space_idem.
  - intros tok' H' E'; rewrite E, <- E'.
    rewrite alias_key_ascii by exact H'; now rewrite re_sub_space_filter.
Qed.

Lemma line_canonical_first line :
  forallb is_ascii line = true ->
  exists first rest,
    split_sep COMMA (strip line) = first :: rest
    /\ tokens line = first :: rest
    /\ forallb is_ascii first = true
    /\ line_canonical line = re_sub_spaces [SPACE] (map ascii_lower first).
Proof.
  intros H; destruct (tokens_ascii line H) as [_ Hall].
  assert (Et : tokens line = split_sep COMMA (strip line))
    by (unfold tokens; now rewrite nfkc_ascii).
  destruct (split_sep_cons COMMA (strip line)) as [first [rest E]].
  rewrite Et, E in Hall; inversion Hall as [|x l Hfirst _]; subst.
  exists first, rest; repeat split; try assumption.
  - now rewrite Et.
  - unfold line_canonical, canonical_form; rewrite Et, E; simpl.
    now rewrite lower_lower_ascii.
Qed.

(** X13.  The canonical form of an ASCII line never starts with a
    whitespace character, while it may end with one. *)
Theorem X13_canonical_no_leading_space line c r :
  forallb is_ascii line = true ->
  line_canonical line = c :: r ->
  isspace c = false.
Proof.
  intros H E.
  destruct (line_canonical_first line H)
    as [first [rest [Es [_ [_ Hc]]]]].
  rewrite Hc in E; clear Hc.
  destruct first as [|c0 r0]; [discriminate|].
  assert (H0 : isspace c0 = false).
  { destruct (split_sep_first _ _ _ _ Es) as [tail Etail].
    destruct (strip_spec line) as [_ [_ [_ [_ [_ [Hfix _]]]]]].
    eapply lstrip_fixed_head; [exact Hfix|exact Etail]. }
  unfold re_sub_spaces in E; simpl in E.
  rewrite ascii_lower_isspace, H0 in E.
  injection E as <- _; now rewrite ascii_lower_isspace.
Qed.

(** X14.  On ASCII lines every canonical form resolves: a value of the
    final alias map, with its whitespace removed, is a key of the map. *)
Theorem X14_canonical_resolves lines :
  Forall (fun line => forallb is_ascii line = true) lines ->
  exists final,
    run lines = Some final
    /\ forall k v,
         dict_get k (ingr_dict final) = Some v ->
         In (re_sub_space [] v) (dict_keys (ingr_dict final)).
Proof.
  intros Hascii; exists (fold_left step lines initial).
  split; [apply run_from_steps|].
  intros k v Hv.
  destruct (producer_dec lines k) as [Hex|Hno];
    [|rewrite steps_other in Hv by exact Hno; discriminate].
  destruct (last_producer lines k Hex)
    as [before [last [after [E [Hin Hafter]]]]].
  assert (Hget := steps_last before last after initial k Hin Hafter).
  rewrite <- E, Hv in Hget; injection Hget as ->.
  assert (Hlast : In last lines)
    by (rewrite E; apply in_or_app; right; now left).
  rewrite Forall_forall in Hascii.
  destruct (line_canonical_first last (Hascii last Hlast))
    as [first [rest [_ [Et [Hfirst Hc]]]]].
  assert (Hk : re_sub_space [] (line_canonical last) = alias_key first).
  { rewrite Hc; unfold re_sub_spaces.
    rewrite re_sub_space_collapsed, re_sub_space_lower.
    now rewrite alias_key_ascii. }
  rewrite Hk.
  assert (Hprod : exists line,
            In line lines /\ In (alias_key first) (line_keys line)).
  { exists last; split; [exact Hlast|].
    unfold line_keys; rewrite Et; now left. }
  destruct (last_producer lines (alias_key first) Hprod)
    as [before' [last' [after' [E' [Hin' Hafter']]]]].
  apply dict_get_In; exists (line_canonical last').
  rewrite E'; now apply steps_last.
Qed.

End AsciiKeys.

(** ** The properties with a precondition, at concrete inputs *)

Lemma onion_lines_scalar :
  Forall (fun line => forallb is_scalar line = true) onion_lines.
Proof. repeat constructor. Defined.

Lemma onion_lines_ascii :
  Forall (fun line => forallb is_ascii line = true) onion_lines.
Proof. repeat constructor. Defined.

(** X9 at the file [Onion,onion], [Red Onion,onion]. *)
Lemma X9_witness :
  Forall (fun line => forallb is_scalar line = true) onion_lines
  /\ exists final,
       run (U := basic_unicode) onion_lines = Some final
       /\ JsonArray.loads_list (Json.dumps_list (words final))
          = Some (words final).
Proof.
  split; [exact onion_lines_scalar|].
  exact (X9_words_round_trip (U := basic_unicode)
           onion_lines onion_lines_scalar).
Defined.


(** X12 at the last token of [Tomato, tomatoes , ROMA TOMATO]. *)
Lemma X12_witness :
  forallb is_ascii (py " ROMA TOMATO") = true
  /\ alias_key (U := basic_unicode) (py " ROMA TOMATO") = py "romatomato"
  /\ alias_key (U := basic_unicode)
       (alias_key (U := basic_unicode) (py " ROMA TOMATO"))
     = alias_key (U := basic_unicode) (py " ROMA TOMATO").
Proof.
  split; [reflexivity|].
  destruct (X12_ascii_key (U := basic_unicode) (py " ROMA TOMATO") eq_refl)
    as [E [Hidem _]].
  split; [exact E|exact Hidem].
Defined.

(** X13 at the line [Roma Tomato , tomato]. *)
Lemma X13_witness :
  forallb is_ascii roma_line = true
  /\ line_canonical (U := basic_unicode) roma_line
     = 114 :: py "oma tomato" ++ [SPACE]
  /\ isspace 114 = false.
Proof.
  split; [reflexivity|]; split; [reflexivity|].
  exact (X13_canonical_no_leading_space (U := basic_unicode)
           roma_line 114 (py "oma tomato" ++ [SPACE]) eq_refl eq_refl).
Defined.

(** X14 at the file [Onion,onion], [Red Onion,onion]. *)
Lemma X14_witness :
  Forall (fun line => forallb is_ascii line = true) onion_lines
  /\ exists final,
       run (U := basic_unicode) onion_lines = Some final
       /\ forall k v,
            dict_get k (ingr_dict final) = Some v ->
            In (re_sub_space [] v) (dict_keys (ingr_dict final)).
Proof.
  split; [exact onion_lines_ascii|].
  exact (X14_canonical_resolves (U := basic_unicode)
           onion_lines onion_lines_ascii).
Defined.
